(** * A shallow embedding of the audio processing pipeline of
    x-space-transcript-summary-app.

    Source files covered:
    - [audioService]          (src/unnamed/part_000): [audioBufferToWav]
    - [transcriptionService]  (src/unnamed/part_001, first half):
      [transcribeAudio], [processSegments], [identifySpeakers],
      [calculateAverageConfidence]
    - [summaryService]        (src/unnamed/part_001, second half):
      [generateSummary], [parseSummaryResponse], [parseTextResponse],
      [validateSentiment]
    - [xSpaceService]         (src/src/services/xSpaceService.ts, first class):
      [extractSpaceMetadata], [extractSpaceId], [processXSpace],
      [validateSpaceUrl], [extractAudioUrl], [makeApiRequest]
    - the other service functions (module [Services]): [extractAudioFromUrl],
      [convertToWav] (part_000), [formatTimestamp] (part_001), and the
      [validateXSpaceUrl], [handleUrlChange] and [handleSubmit] of the
      [UrlInput] form (src/unnamed/part_002)

    Modelling conventions.
    - A JavaScript string is its sequence of UTF-16 code units: [list N].
      [lit] turns an ASCII Rocq literal into such a sequence.
    - JavaScript numbers that enter arithmetic (segment times, confidence
      scores, float audio samples) are idealised as exact rationals [Q];
      integer quantities (lengths, sample rates, byte values) are [nat]/[Z].
      Where a result depends on rounding, [Float64] rounds each operation to
      a double: [TranscriptionF64.calculateAverageConfidence] and the
      division in [formatTimestamp].
    - Library code the repository only calls ([JSON.parse],
      [String.prototype.toLowerCase], [fetch], [String(v)]) is a Section
      variable: every theorem then holds for every behaviour of it.  So are
      the outcomes of the collaborators [processXSpace] calls
      ([extractAudioUrl], [extractAudioFromUrl], [convertToWav]), whose code
      is modelled separately in [Services].
    - Thrown exceptions are the [inl] side of a sum; asynchronous calls that
      the pipeline performs are recorded in a trace. *)

From Stdlib Require Import String Ascii QArith Qminmax Qround Qabs Qpower Lqa DecimalNat.
From stdpp Require Import base list.

#[local] Set Warnings "-register-all".
#[local] Set Warnings "-abstract-large-number".

Open Scope N_scope.

(* ================================================================= *)
(** ** JavaScript strings as code-unit sequences *)

Definition jsstr := list N.

Definition lit (s : string) : jsstr :=
  map (fun a => N.of_nat (nat_of_ascii a)) (list_ascii_of_string s).

Definition str_eqb (a b : jsstr) : bool := bool_decide (a = b).

(** [s.startsWith(p)] *)
Fixpoint startsWith (s p : jsstr) : bool :=
  match p, s with
  | [], _ => true
  | c :: p', d :: s' => N.eqb c d && startsWith s' p'
  | _ :: _, [] => false
  end.

(** [s.includes(p)] *)
Fixpoint includes (s p : jsstr) : bool :=
  startsWith s p ||
  match s with
  | [] => false
  | _ :: s' => includes s' p
  end.

(** Decimal rendering of a non-negative integer, as [`${n}`] prints it. *)
Fixpoint uint_units (d : Decimal.uint) : jsstr :=
  match d with
  | Decimal.Nil => []
  | Decimal.D0 d => 48 :: uint_units d
  | Decimal.D1 d => 49 :: uint_units d
  | Decimal.D2 d => 50 :: uint_units d
  | Decimal.D3 d => 51 :: uint_units d
  | Decimal.D4 d => 52 :: uint_units d
  | Decimal.D5 d => 53 :: uint_units d
  | Decimal.D6 d => 54 :: uint_units d
  | Decimal.D7 d => 55 :: uint_units d
  | Decimal.D8 d => 56 :: uint_units d
  | Decimal.D9 d => 57 :: uint_units d
  end.

Definition nat_to_string (n : nat) : jsstr := uint_units (Nat.to_uint n).

(* ================================================================= *)
(** ** Binary64 arithmetic *)

Module Float64.

(** [2^e] for an integer [e]. *)
Definition Qpow2 (e : Z) : Q :=
  if Z.leb 0 e then inject_Z (2 ^ e)%Z else (1 # Z.to_pos (2 ^ (- e))%Z)%Q.

(** [floor(log2 x)] for [x > 0]: the binary logarithms of the numerator and
    the denominator fix it up to one. *)
Definition flog2 (x : Q) : Z :=
  let t := (Z.log2 (Qnum x) - Z.log2 (Zpos (Qden x)))%Z in
  if Qle_bool (Qpow2 t) x then t else (t - 1)%Z.

(** Rounding to an integer: to nearest, ties to even. *)
Definition round_even (q : Q) : Z :=
  let fl := Qfloor q in
  let r := (Qnum q mod Zpos (Qden q))%Z in
  match Z.compare (2 * r)%Z (Zpos (Qden q)) with
  | Lt => fl
  | Gt => (fl + 1)%Z
  | Eq => if Z.even fl then fl else (fl + 1)%Z
  end.

(** The weight [2^e] of the last bit of a 53-bit significand for [x]:
    [2^52 <= |x| / 2^e < 2^53] for a normal [x], [e = -1074] for a
    subnormal one. *)
Definition ulp_exp (x : Q) : Z := Z.max (flog2 (Qabs x) - 52)%Z (-1074)%Z.

(** IEEE 754 binary64 rounding to nearest, ties to even, of a finite
    result; a magnitude of [2^1024] or more (Infinity in JavaScript) is
    outside the model. *)
Definition round64 (x : Q) : Q :=
  if Qeq_bool x 0 then 0%Q
  else let e := ulp_exp x in (inject_Z (round_even (x * Qpow2 (- e))) * Qpow2 e)%Q.

(** [x] is a finite double. *)
Definition is_double (x : Q) : bool := Qeq_bool (round64 x) x.

(** JavaScript's [+], [-], [/] on numbers, and a decimal literal such as
    [0.8] (the double nearest to it). *)
Definition fadd (a b : Q) : Q := round64 (a + b)%Q.
Definition fsub (a b : Q) : Q := round64 (a - b)%Q.
Definition fdiv (a b : Q) : Q := round64 (a / b)%Q.
Definition lit64 (q : Q) : Q := round64 q.

End Float64.

(* ================================================================= *)
(** ** Transcription service: segments, speakers, confidence *)

Module Transcription.

(** A segment as the provider returns it in [data.segments]; every field
    may be missing. *)
Record RawSegment := {
  r_start : option Q;
  r_end : option Q;
  r_text : option jsstr
}.

(** [interface TranscriptionSegment] ([end] is a Rocq keyword). *)
Record TranscriptionSegment := {
  start : Q;
  end_ : Q;
  text : jsstr;
  speaker : option jsstr
}.

(** [interface TranscriptionResult] *)
Record TranscriptionResult := {
  tr_text : jsstr;
  segments : list TranscriptionSegment;
  speakers : list jsstr;
  language : jsstr;
  confidence : Q
}.

Definition or_zero (o : option Q) : Q :=
  match o with Some q => q | None => 0%Q end.

(** [segments.map((segment, index) => ({ start: segment.start || 0, ...,
      speaker: `Speaker ${Math.floor(index / 5) + 1}` }))] *)
Fixpoint processSegments_from (index : nat) (segs : list RawSegment)
  : list TranscriptionSegment :=
  match segs with
  | [] => []
  | segment :: rest =>
      {| start := or_zero (r_start segment);
         end_ := or_zero (r_end segment);
         text := match r_text segment with Some t => t | None => [] end;
         speaker := Some (lit "Speaker " ++ nat_to_string (Nat.div index 5 + 1)) |}
      :: processSegments_from (S index) rest
  end.

Definition processSegments (segs : list RawSegment) : list TranscriptionSegment :=
  processSegments_from 0 segs.

(** [Set.prototype.add]: a JavaScript [Set] keeps insertion order. *)
Definition set_add (s : jsstr) (set : list jsstr) : list jsstr :=
  if existsb (str_eqb s) set then set else set ++ [s].

(** [segments.forEach(segment => { if (segment.speaker) speakers.add(...) })];
    the empty string is falsy. *)
Definition identifySpeakers (segs : list TranscriptionSegment) : list jsstr :=
  fold_left (fun set segment =>
      match speaker segment with
      | Some s => match s with [] => set | _ => set_add s set end
      | None => set
      end) segs [].

Definition Qltb (a b : Q) : bool := negb (Qle_bool b a).

(** The body of the [forEach] in [calculateAverageConfidence]. *)
Definition segment_confidence (segment : TranscriptionSegment) : Q :=
  let textLength := inject_Z (Z.of_nat (length (text segment))) in
  let duration := (end_ segment - start segment)%Q in
  let wordsPerSecond := (textLength / Qmax duration 1)%Q in
  let confidence := (8 # 10)%Q in
  let confidence :=
    if Qltb 2 wordsPerSecond && Qltb wordsPerSecond 8
    then (confidence + (1 # 10))%Q else confidence in
  let confidence :=
    if includes (text segment) (lit ".") || includes (text segment) (lit "?")
    then (confidence + (5 # 100))%Q else confidence in
  Qmin confidence (95 # 100).

Definition calculateAverageConfidence (segs : list TranscriptionSegment) : Q :=
  match segs with
  | [] => 0%Q
  | _ =>
      let totalScore :=
        fold_left (fun acc segment => (acc + segment_confidence segment)%Q) segs 0%Q in
      (totalScore / inject_Z (Z.of_nat (length segs)))%Q
  end.

(** The fields of the provider's [verbose_json] response that
    [transcribeAudio] reads. *)
Record WhisperData := {
  d_text : option jsstr;
  d_segments : option (list RawSegment);
  d_language : option jsstr
}.

Definition or_empty (o : option jsstr) (dflt : jsstr) : jsstr :=
  match o with Some ((_ :: _) as s) => s | _ => dflt end.

(** The object returned by [transcribeAudio] once [data] is received. *)
Definition build_result (data : WhisperData) : TranscriptionResult :=
  let processedSegments :=
    processSegments (match d_segments data with Some l => l | None => [] end) in
  let speakers := identifySpeakers processedSegments in
  {| tr_text := or_empty (d_text data) [];
     segments := processedSegments;
     speakers := speakers;
     language := or_empty (d_language data) (lit "en");
     confidence := calculateAverageConfidence processedSegments |}.

(** Specification helper (not in the source): the index of the first
    segment whose speaker is [s], or the number of segments if none is. *)
Fixpoint first_appearance (s : jsstr) (l : list (option jsstr)) : nat :=
  match l with
  | [] => 0
  | o :: l' => if bool_decide (o = Some s) then 0 else S (first_appearance s l')
  end.






(** The loop body of [identifySpeakers]. *)
Definition speakers_step (set : list jsstr) (segment : TranscriptionSegment) : list jsstr :=
  match speaker segment with
  | Some s => match s with [] => set | _ => set_add s set end
  | None => set
  end.

(** The invariant of the [forEach] loop over a prefix [segs]. *)
Definition speakers_inv (segs : list TranscriptionSegment) (set : list jsstr) : Prop :=
  NoDup set /\
  (forall s, s ∈ set <-> s <> [] /\ Some s ∈ map speaker segs) /\
  (forall i j a b, (i < j)%nat -> set !! i = Some a -> set !! j = Some b ->
     (first_appearance a (map speaker segs) < first_appearance b (map speaker segs))%nat).

End Transcription.

(* ================================================================= *)
(** ** The confidence estimate in binary64 arithmetic *)

(** [calculateAverageConfidence] once more, each arithmetic operation on
    numbers rounded to a double as JavaScript does; comparisons,
    [Math.min] and [Math.max] are exact. *)
Module TranscriptionF64.
Import Transcription Float64.

(** The body of the [forEach] in [calculateAverageConfidence]. *)
Definition segment_confidence (segment : TranscriptionSegment) : Q :=
  let textLength := inject_Z (Z.of_nat (length (text segment))) in
  let duration := fsub (end_ segment) (start segment) in
  let wordsPerSecond := fdiv textLength (Qmax duration 1) in
  let confidence := lit64 (8 # 10) in
  let confidence :=
    if Qltb 2 wordsPerSecond && Qltb wordsPerSecond 8
    then fadd confidence (lit64 (1 # 10)) else confidence in
  let confidence :=
    if includes (text segment) (lit ".") || includes (text segment) (lit "?")
    then fadd confidence (lit64 (5 # 100)) else confidence in
  Qmin confidence (lit64 (95 # 100)).

Definition calculateAverageConfidence (segs : list TranscriptionSegment) : Q :=
  match segs with
  | [] => 0%Q
  | _ =>
      let totalScore :=
        fold_left (fun acc segment => fadd acc (segment_confidence segment)) segs 0%Q in
      fdiv totalScore (inject_Z (Z.of_nat (length segs)))
  end.

End TranscriptionF64.

(* ================================================================= *)
(** ** Summary service: response parsing *)

Module Summary.

(** Values produced by [JSON.parse]. *)
Inductive jsval :=
  | JNull
  | JBool (b : bool)
  | JNum (q : Q)
  | JStr (s : jsstr)
  | JArr (l : list jsval)
  | JObj (fields : list (jsstr * jsval)).

(** [interface SummaryResult]; on the JSON path the fields carry whatever
    the parsed object holds, so they are JSON values. *)
Record SummaryResult := {
  summary : jsval;
  keyPoints : list jsval;
  topics : list jsval;
  sentiment : jsval;
  actionItems : list jsval;
  participants : list jsval
}.

Definition s_positive := lit "positive".
Definition s_negative := lit "negative".
Definition s_neutral := lit "neutral".
Definition s_mixed := lit "mixed".

Definition validSentiments : list jsstr := [s_positive; s_negative; s_neutral; s_mixed].

Definition summary_fallback := lit "Summary could not be generated.".
Definition keypoints_fallback := lit "Key points could not be extracted.".
Definition topics_fallback := lit "Topics could not be identified.".

Fixpoint assoc (k : jsstr) (fields : list (jsstr * jsval)) : option jsval :=
  match fields with
  | [] => None
  | (k', v) :: rest => if str_eqb k k' then Some v else assoc k rest
  end.

(** [parsed.k]: reading a property of [null] throws a [TypeError] (outer
    [None]); a missing property is [undefined] (inner [None]). *)
Definition get_prop (v : jsval) (k : jsstr) : option (option jsval) :=
  match v with
  | JNull => None
  | JObj fields => Some (assoc k fields)
  | _ => Some None
  end.

(** JavaScript truthiness of a property value ([undefined] is [None]). *)
Definition truthy (o : option jsval) : bool :=
  match o with
  | None | Some JNull => false
  | Some (JBool b) => b
  | Some (JNum q) => negb (Qeq_bool q 0)
  | Some (JStr s) => negb (bool_decide (s = []))
  | Some (JArr _) | Some (JObj _) => true
  end.

(** [Array.isArray(v) ? v : dflt] *)
Definition array_or (o : option jsval) (dflt : list jsval) : list jsval :=
  match o with Some (JArr l) => l | _ => dflt end.

(** [validateSentiment]: [validSentiments.includes(sentiment) ? sentiment : 'neutral'] *)
Definition validateSentiment (o : option jsval) : jsval :=
  match o with
  | Some (JStr s) => if existsb (str_eqb s) validSentiments then JStr s else JStr s_neutral
  | _ => JStr s_neutral
  end.

(** Index of the last [}] in a string. *)
Fixpoint last_close (s : jsstr) : option nat :=
  match s with
  | [] => None
  | c :: s' =>
      match last_close s' with
      | Some k => Some (S k)
      | None => if N.eqb c 125 then Some 0%nat else None
      end
  end.

(** [content.match(/\{[\s\S]*\}/)]: the leftmost [{] that has a [}] after it,
    extended greedily to the last [}]. *)
Fixpoint brace_match (s : jsstr) : option jsstr :=
  match s with
  | [] => None
  | c :: s' =>
      if N.eqb c 123 then
        match last_close s' with
        | Some k => Some (c :: take (S k) s')
        | None => brace_match s'
        end
      else brace_match s'
  end.

(** Whitespace and line terminators, as [String.prototype.trim] and the
    regular-expression class [\s] know them. *)
Definition is_ws (c : N) : bool :=
  existsb (N.eqb c) [9; 10; 11; 12; 13; 32; 160; 5760; 8232; 8233; 8239; 8287; 12288; 65279]
  || (N.leb 8192 c && N.leb c 8202).

Fixpoint trim_start (s : jsstr) : jsstr :=
  match s with
  | c :: s' => if is_ws c then trim_start s' else s
  | [] => []
  end.

Definition trim (s : jsstr) : jsstr := rev (trim_start (rev (trim_start s))).

(** [content.split('\n')] *)
Fixpoint split_nl (s : jsstr) : list jsstr :=
  match s with
  | [] => [[]]
  | c :: s' =>
      if N.eqb c 10 then [] :: split_nl s'
      else match split_nl s' with
           | [] => [[c]]
           | l :: ls => (c :: l) :: ls
           end
  end.

Definition is_bullet (c : N) : bool := N.eqb c 45 || N.eqb c 8226.

(** [trimmed.startsWith('-') || trimmed.startsWith('•')] *)
Definition bulleted (s : jsstr) : bool :=
  match s with c :: _ => is_bullet c | [] => false end.

(** [trimmed.replace(/^[-•]\s*/, '')] *)
Definition strip_bullet (s : jsstr) : jsstr :=
  match s with
  | c :: s' => if is_bullet c then trim_start s' else s
  | [] => s
  end.

(** [s.match(/(positive|negative|neutral|mixed)/)]: leftmost position, the
    alternatives tried in order; the result is capture group 1. *)
Fixpoint sentiment_match (s : jsstr) : option jsstr :=
  match find (startsWith s) validSentiments with
  | Some w => Some w
  | None => match s with [] => None | _ :: s' => sentiment_match s' end
  end.

Inductive section := NoSection | SSummary | SKeyPoints | STopics | SSentiment | SActions.

(** The local variables of [parseTextResponse]. *)
Record text_state := {
  t_summary : jsstr;
  t_keyPoints : list jsstr;
  t_topics : list jsstr;
  t_sentiment : jsstr;
  t_actionItems : list jsstr;
  t_section : section
}.

Definition text_init : text_state :=
  {| t_summary := []; t_keyPoints := []; t_topics := []; t_sentiment := s_neutral;
     t_actionItems := []; t_section := NoSection |}.

Section Parsing.

(** [String.prototype.toLowerCase] and [JSON.parse] ([None]: a
    [SyntaxError]) are left abstract. *)
Variable to_lower : jsstr -> jsstr.
Variable json_parse : jsstr -> option jsval.

Definition set_section (st : text_state) (sec : section) : text_state :=
  {| t_summary := t_summary st; t_keyPoints := t_keyPoints st; t_topics := t_topics st;
     t_sentiment := t_sentiment st; t_actionItems := t_actionItems st; t_section := sec |}.

(** One iteration of [for (const line of lines)]. *)
Definition text_step (st : text_state) (line : jsstr) : text_state :=
  let trimmed := trim line in
  let low := to_lower trimmed in
  if includes low (lit "summary") then set_section st SSummary
  else if includes low (lit "key points") || includes low (lit "takeaways")
  then set_section st SKeyPoints
  else if includes low (lit "topics") then set_section st STopics
  else if includes low (lit "sentiment") then set_section st SSentiment
  else if includes low (lit "action") then set_section st SActions
  else
    match t_section st with
    | SSummary =>
        if negb (bulleted trimmed) then
          {| t_summary := t_summary st ++ (match t_summary st with [] => [] | _ => lit " " end)
                          ++ trimmed;
             t_keyPoints := t_keyPoints st; t_topics := t_topics st;
             t_sentiment := t_sentiment st; t_actionItems := t_actionItems st;
             t_section := t_section st |}
        else st
    | SKeyPoints =>
        if bulleted trimmed then
          {| t_summary := t_summary st; t_keyPoints := t_keyPoints st ++ [strip_bullet trimmed];
             t_topics := t_topics st; t_sentiment := t_sentiment st;
             t_actionItems := t_actionItems st; t_section := t_section st |}
        else st
    | STopics =>
        if bulleted trimmed then
          {| t_summary := t_summary st; t_keyPoints := t_keyPoints st;
             t_topics := t_topics st ++ [strip_bullet trimmed]; t_sentiment := t_sentiment st;
             t_actionItems := t_actionItems st; t_section := t_section st |}
        else st
    | SActions =>
        if bulleted trimmed then
          {| t_summary := t_summary st; t_keyPoints := t_keyPoints st;
             t_topics := t_topics st; t_sentiment := t_sentiment st;
             t_actionItems := t_actionItems st ++ [strip_bullet trimmed];
             t_section := t_section st |}
        else st
    | SSentiment =>
        match sentiment_match (to_lower trimmed) with
        | Some w =>
            {| t_summary := t_summary st; t_keyPoints := t_keyPoints st;
               t_topics := t_topics st; t_sentiment := w;
               t_actionItems := t_actionItems st; t_section := t_section st |}
        | None => st
        end
    | NoSection => st
    end.

Definition parseTextResponse (content : jsstr) (speakers : list jsstr) : SummaryResult :=
  let lines := List.filter (fun line => negb (bool_decide (trim line = []))) (split_nl content) in
  let st := fold_left text_step lines text_init in
  {| summary := JStr (match t_summary st with [] => summary_fallback | s => s end);
     keyPoints := match t_keyPoints st with
                  | [] => [JStr keypoints_fallback] | l => map JStr l end;
     topics := match t_topics st with
               | [] => [JStr topics_fallback] | l => map JStr l end;
     sentiment := JStr (t_sentiment st);
     actionItems := map JStr (t_actionItems st);
     participants := map JStr speakers |}.

(** The object built on the JSON path, or [None] when reading a property
    throws. *)
Definition from_parsed (parsed : jsval) (speakers : list jsstr) : option SummaryResult :=
  s ← get_prop parsed (lit "summary");
  kp ← get_prop parsed (lit "keyPoints");
  tp ← get_prop parsed (lit "topics");
  se ← get_prop parsed (lit "sentiment");
  ai ← get_prop parsed (lit "actionItems");
  pa ← get_prop parsed (lit "participants");
  Some {| summary := (match s with
                      | Some v => if truthy s then v else JStr summary_fallback
                      | None => JStr summary_fallback end);
          keyPoints := array_or kp [];
          topics := array_or tp [];
          sentiment := validateSentiment se;
          actionItems := array_or ai [];
          participants := array_or pa (map JStr speakers) |}.

(** [parseSummaryResponse]: the [try] block, then the text fallback. *)
Definition parseSummaryResponse (content : jsstr) (speakers : list jsstr) : SummaryResult :=
  let attempt :=
    match brace_match content with
    | Some m =>
        match json_parse m with
        | Some parsed => from_parsed parsed speakers
        | None => None
        end
    | None => None
    end in
  match attempt with
  | Some r => r
  | None => parseTextResponse content speakers
  end.

End Parsing.

End Summary.

(* ================================================================= *)
(** ** Audio service: [audioBufferToWav] *)

Module Wav.

(** A decoded [AudioBuffer]: [length] frames, a sample rate and one array of
    float samples per channel ([numberOfChannels] is the number of arrays).
    The sample rate enters only [setUint32], which keeps its integer part, so
    it is an integer here. *)
Record AudioBuffer := {
  length_ : nat;
  sampleRate : Z;
  channelData : list (list Q)
}.

Definition numberOfChannels (b : AudioBuffer) : nat := List.length (channelData b).

(** [buffer.getChannelData(channel)[i]].  Past the end the read is
    [undefined], the clamp yields [NaN] and [setInt16] stores 0, which is
    what the default 0 stores as well. *)
Definition getChannelData (b : AudioBuffer) (channel i : nat) : Q :=
  nth i (nth channel (channelData b) []) 0%Q.

(** The bytes of an [ArrayBuffer]. *)
Abbreviation bytes := (list Z).

(** The [k] low bytes of [v], least significant first (two's complement
    for negative [v]). *)
Fixpoint le_bytes (k : nat) (v : Z) : list Z :=
  match k with
  | O => []
  | S k' => Z.land v 255 :: le_bytes k' (Z.shiftr v 8)
  end.

Fixpoint write_bytes (view : bytes) (off : nat) (bs : list Z) : bytes :=
  match bs with
  | [] => view
  | b :: bs' => write_bytes (<[off := b]> view) (S off) bs'
  end.

(** A [DataView] store of [k] bytes at [off]: [RangeError] ([None]) when it
    does not fit. *)
Definition set_le (view : bytes) (off k : nat) (v : Z) : option bytes :=
  if Nat.leb (off + k) (List.length view) then Some (write_bytes view off (le_bytes k v))
  else None.

Definition setUint8 (view : bytes) (off : nat) (v : Z) : option bytes := set_le view off 1 v.
Definition setUint16 (view : bytes) (off : nat) (v : Z) : option bytes := set_le view off 2 v.
Definition setUint32 (view : bytes) (off : nat) (v : Z) : option bytes := set_le view off 4 v.

(** [ToInt16] of a finite number: truncation toward zero, then the low 16
    bits. *)
Definition Qtrunc (q : Q) : Z := if Qle_bool 0 q then Qfloor q else Qceiling q.

Definition setInt16 (view : bytes) (off : nat) (x : Q) : option bytes :=
  set_le view off 2 (Qtrunc x).

Definition char_codes (s : string) : list Z :=
  map (fun a => Z.of_nat (nat_of_ascii a)) (list_ascii_of_string s).

(** [writeString(offset, string)] *)
Fixpoint writeString (view : bytes) (off : nat) (s : list Z) : option bytes :=
  match s with
  | [] => Some view
  | c :: s' => v ← setUint8 view off c; writeString v (S off) s'
  end.

Definition Qltb (a b : Q) : bool := negb (Qle_bool b a).

(** The inner loop over the channels, for frame [i]. *)
Fixpoint write_channels (view : bytes) (off i : nat) (chs : list (list Q))
  : option (bytes * nat) :=
  match chs with
  | [] => Some (view, off)
  | d :: rest =>
      let sample := Qmax (-1) (Qmin 1 (nth i d 0%Q)) in
      v ← setInt16 view off (if Qltb sample 0 then sample * 32768 else sample * 32767)%Q;
      write_channels v (off + 2)%nat i rest
  end.

(** The outer loop over the frames [i, i + k). *)
Fixpoint write_frames (view : bytes) (off i k : nat) (chs : list (list Q))
  : option (bytes * nat) :=
  match k with
  | O => Some (view, off)
  | S k' =>
      '(v, o) ← write_channels view off i chs;
      write_frames v o (S i) k' chs
  end.

Definition audioBufferToWav (buffer : AudioBuffer) : option bytes :=
  let length := length_ buffer in
  let numberOfChannels := numberOfChannels buffer in
  let sampleRate := sampleRate buffer in
  let dataBytes := (length * numberOfChannels * 2)%nat in
  let view := repeat 0%Z (44 + dataBytes) in
  v ← writeString view 0 (char_codes "RIFF");
  v ← setUint32 v 4 (36 + Z.of_nat dataBytes);
  v ← writeString v 8 (char_codes "WAVE");
  v ← writeString v 12 (char_codes "fmt ");
  v ← setUint32 v 16 16;
  v ← setUint16 v 20 1;
  v ← setUint16 v 22 (Z.of_nat numberOfChannels);
  v ← setUint32 v 24 sampleRate;
  v ← setUint32 v 28 (sampleRate * Z.of_nat numberOfChannels * 2);
  v ← setUint16 v 32 (Z.of_nat numberOfChannels * 2);
  v ← setUint16 v 34 16;
  v ← writeString v 36 (char_codes "data");
  v ← setUint32 v 40 (Z.of_nat dataBytes);
  '(v, _) ← write_frames v 44 0 length (channelData buffer);
  Some v.

(** Readers used to state the layout: the unsigned little-endian value of
    [k] bytes at [off], and the signed 16-bit value there. *)
Definition le_value (bs : list Z) : Z := fold_right (fun b acc => b + 256 * acc)%Z 0%Z bs.

Definition u_at (bs : bytes) (off k : nat) : Z := le_value (take k (drop off bs)).

Definition i16_at (bs : bytes) (off : nat) : Z :=
  let u := u_at bs off 2 in if Z.ltb u 32768 then u else (u - 65536)%Z.

(** The sample conversion in the words of the spec: clamp to [-1, 1], then
    scale by 32768 below zero and by 32767 otherwise, truncating toward
    zero. *)
Definition clamp_spec (x : Q) : Q :=
  if Qltb x (-1) then (-1)%Q else if Qltb 1 x then 1%Q else x.

Definition pcm16_spec (x : Q) : Z :=
  let s := clamp_spec x in
  Qtrunc (if Qltb s 0 then s * 32768 else s * 32767)%Q.

(** Proof helpers: the header bytes and the sample bytes that the loops
    produce, in closed form. *)
Definition wav_header (length numberOfChannels : nat) (sampleRate : Z) : list Z :=
  let dataBytes := (length * numberOfChannels * 2)%nat in
  char_codes "RIFF" ++ le_bytes 4 (36 + Z.of_nat dataBytes) ++ char_codes "WAVE"
  ++ char_codes "fmt " ++ le_bytes 4 16 ++ le_bytes 2 1
  ++ le_bytes 2 (Z.of_nat numberOfChannels) ++ le_bytes 4 sampleRate
  ++ le_bytes 4 (sampleRate * Z.of_nat numberOfChannels * 2)
  ++ le_bytes 2 (Z.of_nat numberOfChannels * 2) ++ le_bytes 2 16
  ++ char_codes "data" ++ le_bytes 4 (Z.of_nat dataBytes).

Definition sample_value (x : Q) : Q :=
  let sample := Qmax (-1) (Qmin 1 x) in
  if Qltb sample 0 then (sample * 32768)%Q else (sample * 32767)%Q.

Definition frame_bytes (i : nat) (chs : list (list Q)) : list Z :=
  concat (map (fun d => le_bytes 2 (Qtrunc (sample_value (nth i d 0%Q)))) chs).

Definition frames_bytes (i k : nat) (chs : list (list Q)) : list Z :=
  concat (map (fun j => frame_bytes j chs) (seq i k)).

End Wav.

(* ================================================================= *)
(** ** Provider calls, X Space metadata and the pipeline *)

Module Pipeline.
Import Transcription Summary.

(** A thrown value: an [Error] with its [message], or anything else. *)
Inductive Exn := ErrorObj (message : jsstr) | NonError.

(** [error instanceof Error ? error.message : 'Unknown error'] *)
Definition errorMessage (e : Exn) : jsstr :=
  match e with ErrorObj m => m | NonError => lit "Unknown error" end.

(** Asynchronous code that may throw, with the trace of the events [E] it
    performs (requests sent, collaborators called). *)
Definition M (E A : Type) : Type := list E * (Exn + A).

#[global] Instance M_ret E : MRet (M E) := fun A x => ([], inr x).
#[global] Instance M_bind E : MBind (M E) := fun A B (k : A -> M E B) (m : M E A) =>
  match m with
  | (t, inl e) => (t, inl e)
  | (t, inr x) => let '(t', r) := k x in (t ++ t', r)
  end.

Definition throw {E A} (e : Exn) : M E A := ([], inl e).

(** An awaited promise whose outcome is already known. *)
Definition of_sum {E A} (r : Exn + A) : M E A := ([], r).

(** An effect [ev] whose outcome is [r]. *)
Definition perform {E A} (ev : E) (r : Exn + A) : M E A := ([ev], r).

(** [try { m } catch (error) { h(error) }] *)
Definition try_catch {E A} (m : M E A) (h : Exn -> M E A) : M E A :=
  match m with
  | (t, inl e) => let '(t', r) := h e in (t ++ t', r)
  | (t, inr x) => (t, inr x)
  end.

(** [import.meta.env]: each variable is a string or [undefined]. *)
Record Env := {
  VITE_OPENAI_API_KEY : option jsstr;
  VITE_PROXY_SERVER_URL : option jsstr;
  VITE_PROXY_SERVER_ACCESS_TOKEN : option jsstr;
  VITE_TWITTER_BEARER_TOKEN : option jsstr
}.

(** Truthiness of an environment value. *)
Definition env_truthy (o : option jsstr) : bool :=
  match o with Some (_ :: _) => true | _ => false end.

Definition undefined_str : jsstr := lit "undefined".

(** [import.meta.env.VITE_PROXY_SERVER_URL || 'undefined'] and the token. *)
Definition proxyUrl (env : Env) : jsstr := or_empty (VITE_PROXY_SERVER_URL env) undefined_str.
Definition proxyToken (env : Env) : jsstr :=
  or_empty (VITE_PROXY_SERVER_ACCESS_TOKEN env) undefined_str.

(** The HTTP request [fetch] is given: to the target directly, or wrapped
    into a POST to the forwarding endpoint.  Headers and bodies are left to
    the [fetch] variables, which receive the payload separately. *)
Inductive Request :=
  | Direct (url method : jsstr)
  | ViaProxy (proxy token url method : jsstr).

(** [makeApiRequest] of the two OpenAI services. *)
Definition openai_request (env : Env) (url method : jsstr) : Request :=
  if str_eqb (proxyUrl env) undefined_str then Direct url method
  else ViaProxy (proxyUrl env) (proxyToken env) url method.

(** A [Response]: [response.json()] either rejects ([inl]) or yields the
    decoded body. *)
Record Response (Body : Type) := {
  ok : bool;
  statusText : jsstr;
  json : Exn + Body
}.
Arguments ok {Body}.
Arguments statusText {Body}.
Arguments json {Body}.

(** The bodies the providers return, typed as the provider interfaces
    describe them: the [error.message] of an error body, and the fields the
    success path reads. *)
Record WhisperBody := {
  w_error_message : option jsstr;
  w_data : WhisperData
}.

Record ChatBody := {
  c_error_message : option jsstr;
  (** [data.choices?.[0]?.message?.content] *)
  c_content : option jsstr
}.

Definition transcriptions_url := lit "https://api.openai.com/v1/audio/transcriptions".
Definition completions_url := lit "https://api.openai.com/v1/chat/completions".
Definition POST := lit "POST".

Definition config_error : Exn :=
  ErrorObj (lit "OpenAI API key not configured. Please add VITE_OPENAI_API_KEY to your .env file.").

(** [(await response.json().catch(() => ({}))).error?.message] *)
Definition error_data_message {B} (r : Response B) (msg : B -> option jsstr) : option jsstr :=
  match json r with inr b => msg b | inl _ => None end.

Section Providers.

Variable env : Env.
Variable Blob : Type.
(** The outcome of [fetch] for a transcription request carrying the given
    audio and filename, and for a completion request built from the given
    transcript and speakers; [inl] is a rejection. *)
Variable fetch_whisper : Request -> Blob -> jsstr -> Exn + Response WhisperBody.
Variable fetch_chat : Request -> jsstr -> list jsstr -> Exn + Response ChatBody.
Variable to_lower : jsstr -> jsstr.
Variable json_parse : jsstr -> option jsval.

Definition transcribeAudio (audioBlob : Blob) (filename : jsstr) : M Request TranscriptionResult :=
  if negb (env_truthy (VITE_OPENAI_API_KEY env)) then throw config_error else
  try_catch
    (let req := openai_request env transcriptions_url POST in
     response ← perform req (fetch_whisper req audioBlob filename);
     if negb (ok response) then
       throw (ErrorObj (lit "Transcription failed: "
                        ++ or_empty (error_data_message response w_error_message)
                                    (statusText response)))
     else
       data ← of_sum (json response);
       mret (build_result (w_data data)))
    (fun error => throw (ErrorObj (lit "Failed to transcribe audio: " ++ errorMessage error))).

Definition generateSummary (transcript : jsstr) (speakers : list jsstr) : M Request SummaryResult :=
  if negb (env_truthy (VITE_OPENAI_API_KEY env)) then throw config_error else
  try_catch
    (let req := openai_request env completions_url POST in
     response ← perform req (fetch_chat req transcript speakers);
     if negb (ok response) then
       throw (ErrorObj (lit "Summary generation failed: "
                        ++ or_empty (error_data_message response c_error_message)
                                    (statusText response)))
     else
       data ← of_sum (json response);
       match c_content data with
       | Some ((_ :: _) as content) => mret (parseSummaryResponse to_lower json_parse content speakers)
       | _ => throw (ErrorObj (lit "No summary content received from API"))
       end)
    (fun error => throw (ErrorObj (lit "Failed to generate summary: " ++ errorMessage error))).

End Providers.

(** *** [xSpaceService] *)

Definition is_digit (c : N) : bool := (48 <=? c) && (c <=? 57).
Definition is_alnum (c : N) : bool :=
  is_digit c || ((65 <=? c) && (c <=? 90)) || ((97 <=? c) && (c <=? 122)).

Fixpoint take_while (p : N -> bool) (s : jsstr) : jsstr :=
  match s with
  | [] => []
  | c :: s' => if p c then c :: take_while p s' else []
  end.

(** [s.match(/pre([cls]+)/)?.[1]]: the capture of the leftmost match of a
    literal prefix followed by a greedy non-empty run of [cls]. *)
Fixpoint match_capture (pre : jsstr) (cls : N -> bool) (s : jsstr) : option jsstr :=
  let here := if startsWith s pre then take_while cls (drop (length pre) s) else [] in
  match here with
  | _ :: _ => Some here
  | [] => match s with [] => None | _ :: s' => match_capture pre cls s' end
  end.

(** The four [patterns] of [extractSpaceId], in order. *)
Definition patterns : list (jsstr * (N -> bool)) :=
  [(lit "/spaces/", is_alnum); (lit "spaces.twitter.com/", is_alnum);
   (lit "/status/", is_digit); (lit "/i/spaces/", is_alnum)].

Fixpoint first_capture (pats : list (jsstr * (N -> bool))) (url : jsstr) : option jsstr :=
  match pats with
  | [] => None
  | (pre, cls) :: rest =>
      match match_capture pre cls url with
      | Some ((_ :: _) as m) => Some m
      | _ => first_capture rest url
      end
  end.

Definition invalid_format : Exn := ErrorObj (lit "Invalid X Space URL format").

(** [extractSpaceId]; the argument is typed [string], so only the empty
    string fails the [!url] test. *)
Definition extractSpaceId (url : jsstr) : Exn + jsstr :=
  match url with
  | [] => inl (ErrorObj (lit "Invalid URL provided"))
  | _ => match first_capture patterns url with
         | Some m => inr m
         | None => inl invalid_format
         end
  end.

(** [interface XSpaceMetadata]; the fields filled from the Twitter response
    carry whatever JSON value it holds. *)
Record XSpaceMetadata := {
  id : jsval;
  title : jsval;
  hostUsername : jsval;
  participantCount : jsval;
  isLive : bool;
  scheduledStart : option jsval;
  actualStart : option jsval;
  estimatedEnd : option jsval;
  state : jsval
}.

Definition basicMetadata (spaceId : jsstr) : XSpaceMetadata :=
  {| id := JStr spaceId; title := JStr (lit "X Space Recording");
     hostUsername := JStr (lit "Unknown"); participantCount := JNum 0;
     isLive := false; scheduledStart := None; actualStart := None; estimatedEnd := None;
     state := JStr (lit "ended") |}.

(** The object returned by the outer [catch]. *)
Definition fallbackMetadata : XSpaceMetadata :=
  {| id := JStr (lit "unknown"); title := JStr (lit "X Space Recording");
     hostUsername := JStr (lit "Unknown"); participantCount := JNum 0;
     isLive := false; scheduledStart := None; actualStart := None; estimatedEnd := None;
     state := JStr (lit "ended") |}.

(** [this.twitterBearerToken && this.twitterBearerToken !== 'undefined' &&
    this.twitterBearerToken.length > 10] *)
Definition token_configured (env : Env) : bool :=
  match VITE_TWITTER_BEARER_TOKEN env with
  | Some t => env_truthy (Some t) && negb (str_eqb t undefined_str) && Nat.ltb 10 (length t)
  | None => false
  end.

Definition space_api_url (spaceId : jsstr) : jsstr :=
  lit "https://api.twitter.com/2/spaces/" ++ spaceId
  ++ lit "?expansions=host_ids&user.fields=username,name&space.fields=participant_count,speaker_ids,is_ticketed,state,scheduled_start,started_at,ended_at,topic_ids,title".

Definition type_error : Exn := ErrorObj (lit "Cannot read properties of null").

(** [v.k], which throws on [null]. *)
Definition get {E} (v : jsval) (k : jsstr) : M E (option jsval) :=
  match get_prop v k with Some r => mret r | None => throw type_error end.

(** [o?.k] *)
Definition opt_get (o : option jsval) (k : jsstr) : option jsval :=
  match o with
  | None | Some JNull => None
  | Some v => match get_prop v k with Some r => r | None => None end
  end.

(** [o?.[0]] *)
Definition opt_index0 (o : option jsval) : option jsval :=
  match o with
  | Some (JArr (x :: _)) => Some x
  | Some (JStr (c :: _)) => Some (JStr [c])
  | Some (JObj fields) => assoc (lit "0") fields
  | _ => None
  end.

(** [a || b] *)
Definition or_js (o : option jsval) (dflt : jsval) : jsval :=
  match o with Some v => if truthy o then v else dflt | None => dflt end.

(** [space.state === 'live'] *)
Definition is_live (o : option jsval) : bool :=
  match o with Some (JStr s) => str_eqb s (lit "live") | _ => false end.

Section XSpace.

Variable env : Env.
(** The outcome of [fetch] for a Twitter request; [inl] is a rejection. *)
Variable fetch_twitter : Request -> Exn + Response jsval.

(** [makeApiRequest] of [XSpaceService]: a rejected [fetch] gives [null]. *)
Definition makeApiRequest (url method : jsstr) : M Request (option (Response jsval)) :=
  let req := if negb (str_eqb (proxyUrl env) undefined_str)
                && negb (str_eqb (proxyToken env) undefined_str)
             then ViaProxy (proxyUrl env) (proxyToken env) url method
             else Direct url method in
  try_catch (response ← perform req (fetch_twitter req); mret (Some response))
            (fun _ => mret None).

(** The object built from a truthy [data.data]. *)
Definition from_space (spaceId : jsstr) (data space : jsval) : M Request XSpaceMetadata :=
  let host := opt_index0 (opt_get (opt_get (Some data) (lit "includes")) (lit "users")) in
  sid ← get space (lit "id");
  ttl ← get space (lit "title");
  pc ← get space (lit "participant_count");
  st ← get space (lit "state");
  ss ← get space (lit "scheduled_start");
  sa ← get space (lit "started_at");
  se ← get space (lit "ended_at");
  mret {| id := or_js sid (JStr spaceId);
          title := or_js ttl (JStr (lit "X Space Recording"));
          hostUsername := or_js (opt_get host (lit "username")) (JStr (lit "Unknown"));
          participantCount := or_js pc (JNum 0);
          isLive := is_live st;
          scheduledStart := ss; actualStart := sa; estimatedEnd := se;
          state := or_js st (JStr (lit "ended")) |}.

Definition extractSpaceMetadata (spaceUrl : jsstr) : M Request XSpaceMetadata :=
  try_catch
    (spaceId ← of_sum (extractSpaceId spaceUrl);
     if bool_decide (spaceId = []) then throw invalid_format else
     let basic := basicMetadata spaceId in
     if token_configured env then
       try_catch
         (response ← makeApiRequest (space_api_url spaceId) (lit "GET");
          match response with
          | Some r =>
              if ok r then
                data ← of_sum (json r);
                if truthy (Some data) then
                  dd ← get data (lit "data");
                  match dd with
                  | Some space => if truthy dd then from_space spaceId data space else mret basic
                  | None => mret basic
                  end
                else mret basic
              else mret basic
          | None => mret basic
          end)
         (fun _ => mret basic)
     else mret basic)
    (fun _ => mret fallbackMetadata).

End XSpace.

(** *** [processXSpace] *)

(** [interface XSpaceProcessingResult] *)
Record XSpaceProcessingResult := {
  metadata : XSpaceMetadata;
  transcription : TranscriptionResult;
  summary : SummaryResult;
  audioUrl : option jsstr
}.

(** The collaborators the orchestrator calls. *)
Inductive Stage := ResolveAudioUrl | FetchAudio | ConvertToWav | Transcribe | Summarize.

(** What a pipeline run does: HTTP requests and calls of collaborators. *)
Inductive Event := Req (r : Request) | Call (s : Stage).

Definition lift {A} (m : M Request A) : M Event A := (map Req (fst m), snd m).

(** A call of a collaborator whose own requests are traced by [m]. *)
Definition call_with {A} (s : Stage) (m : M Request A) : M Event A :=
  (Call s :: map Req (fst m), snd m).

Definition unavailable_error : Exn :=
  ErrorObj (lit "Unable to access X Space audio. The space may be private, expired, or audio may not be available for download.").

Section Orchestrator.

Variable env : Env.
Variable Blob : Type.
Variable fetch_twitter : Request -> Exn + Response jsval.
Variable fetch_whisper : Request -> Blob -> jsstr -> Exn + Response WhisperBody.
Variable fetch_chat : Request -> jsstr -> list jsstr -> Exn + Response ChatBody.
Variable to_lower : jsstr -> jsstr.
Variable json_parse : jsstr -> option jsval.
(** [String(v)], as a template literal renders [metadata.title]. *)
Variable to_string : jsval -> jsstr.
(** The outcomes of [this.extractAudioUrl(spaceUrl)],
    [audioService.extractAudioFromUrl(audioUrl)] and
    [audioService.convertToWav(audioBlob)]. *)
Variable extractAudioUrl : jsstr -> Exn + jsstr.
Variable extractAudioFromUrl : jsstr -> Exn + Blob.
Variable convertToWav : Blob -> Exn + Blob.

Definition processXSpace (spaceUrl : jsstr) : M Event XSpaceProcessingResult :=
  metadata ← lift (extractSpaceMetadata env fetch_twitter spaceUrl);
  '(audioUrl, audioBlob) ←
    try_catch
      (audioUrl ← perform (Call ResolveAudioUrl) (extractAudioUrl spaceUrl);
       audioBlob ← perform (Call FetchAudio) (extractAudioFromUrl audioUrl);
       mret (audioUrl, audioBlob))
      (fun _ => throw unavailable_error);
  processedAudio ← perform (Call ConvertToWav) (convertToWav audioBlob);
  transcription ← call_with Transcribe
    (transcribeAudio env Blob fetch_whisper processedAudio
       (to_string (title metadata) ++ lit ".wav"));
  summary ← call_with Summarize
    (generateSummary env fetch_chat to_lower json_parse
       (tr_text transcription) (speakers transcription));
  mret {| metadata := metadata; transcription := transcription;
          summary := summary; audioUrl := Some audioUrl |}.

End Orchestrator.

(** Specification helper (not in the source): the Twitter lookup of
    [spaceId] gives nothing usable, because [fetch] rejects, the status is
    not ok, the body does not parse, or [data] or [data.data] is falsy. *)
Definition lookup_failed (env : Env) (fetch_twitter : Request -> Exn + Response jsval)
    (spaceId : jsstr) : Prop :=
  match snd (makeApiRequest env fetch_twitter (space_api_url spaceId) (lit "GET")) with
  | inr (Some r) =>
      ok r = false \/
      match json r with
      | inl _ => True
      | inr data => truthy (Some data) = false \/
                    match get_prop data (lit "data") with
                    | Some dd => truthy dd = false
                    | None => True
                    end
      end
  | _ => True
  end.

End Pipeline.

(* ================================================================= *)
(** ** The other service functions and the URL form *)

Module Services.
Import Transcription Summary Pipeline.

(** *** Regular expressions, for the patterns that [pattern.test(s)] checks *)

Inductive regex :=
  | RNone
  | REps
  | RChr (p : N -> bool)
  | RCat (r1 r2 : regex)
  | RAlt (r1 r2 : regex)
  | RStar (r : regex).

Fixpoint nullable (r : regex) : bool :=
  match r with
  | RNone | RChr _ => false
  | REps | RStar _ => true
  | RCat r1 r2 => nullable r1 && nullable r2
  | RAlt r1 r2 => nullable r1 || nullable r2
  end.

(** The derivative of [r] by [c]: it matches [w] when [r] matches [c :: w]. *)
Fixpoint deriv (c : N) (r : regex) : regex :=
  match r with
  | RNone | REps => RNone
  | RChr p => if p c then REps else RNone
  | RCat r1 r2 =>
      if nullable r1 then RAlt (RCat (deriv c r1) r2) (deriv c r2)
      else RCat (deriv c r1) r2
  | RAlt r1 r2 => RAlt (deriv c r1) (deriv c r2)
  | RStar r1 => RCat (deriv c r1) (RStar r1)
  end.

(** [/^r/.test(s)]: some prefix of [s] matches [r]. *)
Fixpoint test_prefix (r : regex) (s : jsstr) : bool :=
  nullable r || match s with [] => false | c :: s' => test_prefix (deriv c r) s' end.

Definition rstr (s : jsstr) : regex := fold_right (fun c r => RCat (RChr (N.eqb c)) r) REps s.
(** [r?] and [r+] *)
Definition ropt (r : regex) : regex := RAlt r REps.
Definition rplus (r : regex) : regex := RCat r (RStar r).
Definition rseq (rs : list regex) : regex := fold_right RCat REps rs.

(** Specification helper (not in the source): the language of a regular
    expression. *)
Inductive in_re : regex -> jsstr -> Prop :=
  | in_eps : in_re REps []
  | in_chr (p : N -> bool) c : p c = true -> in_re (RChr p) [c]
  | in_cat r1 r2 w1 w2 : in_re r1 w1 -> in_re r2 w2 -> in_re (RCat r1 r2) (w1 ++ w2)
  | in_alt_l r1 r2 w : in_re r1 w -> in_re (RAlt r1 r2) w
  | in_alt_r r1 r2 w : in_re r2 w -> in_re (RAlt r1 r2) w
  | in_star_nil r : in_re (RStar r) []
  | in_star_cons r w1 w2 : in_re r w1 -> in_re (RStar r) w2 -> in_re (RStar r) (w1 ++ w2).

(** [[^\/]] *)
Definition not_slash (c : N) : bool := negb (N.eqb c 47).

(** The [xSpacePatterns] of the URL form, in order. *)
Definition xSpacePatterns : list regex :=
  [rseq [rstr (lit "http"); ropt (rstr (lit "s")); rstr (lit "://"); ropt (rstr (lit "www."));
         rstr (lit "twitter.com/i/spaces/"); rplus (RChr is_alnum)];
   rseq [rstr (lit "http"); ropt (rstr (lit "s")); rstr (lit "://"); ropt (rstr (lit "www."));
         rstr (lit "x.com/i/spaces/"); rplus (RChr is_alnum)];
   rseq [rstr (lit "http"); ropt (rstr (lit "s")); rstr (lit "://spaces.twitter.com/");
         rplus (RChr is_alnum)];
   rseq [rstr (lit "http"); ropt (rstr (lit "s")); rstr (lit "://twitter.com/");
         rplus (RChr not_slash); rstr (lit "/status/"); rplus (RChr is_digit)];
   rseq [rstr (lit "http"); ropt (rstr (lit "s")); rstr (lit "://x.com/");
         rplus (RChr not_slash); rstr (lit "/status/"); rplus (RChr is_digit)]].

(** [validateXSpaceUrl] of [UrlInput]; the argument is a string, so only
    the empty string fails the [!inputUrl] test. *)
Definition validateXSpaceUrl (inputUrl : jsstr) : bool :=
  match inputUrl with
  | [] => false
  | _ => existsb (fun pattern => test_prefix pattern inputUrl) xSpacePatterns
  end.

(** *** [XSpaceService.validateSpaceUrl] *)

Definition validateSpaceUrl (spaceUrl : jsstr) : bool :=
  match extractSpaceId spaceUrl with
  | inr spaceId => negb (bool_decide (spaceId = []))
  | inl _ => false
  end.

(** *** [UrlInput]: the input handler and the submit handler *)

(** [{ isValid: true, metadata }] and [{ isValid: false }] *)
Inductive ValidationResult := Valid (metadata : XSpaceMetadata) | Invalid.

Section UrlForm.

Variable env : Env.
Variable fetch_twitter : Request -> Exn + Response jsval.

(** [handleUrlChange]: the [validationResult] and [error] it leaves once
    its promise settles (the [finally] resets [isValidating]). *)
Definition handleUrlChange (newUrl : jsstr) : M Request (option ValidationResult * jsstr) :=
  if negb (bool_decide (trim newUrl = [])) && validateXSpaceUrl newUrl then
    try_catch
      (let isValid := validateSpaceUrl newUrl in
       if isValid then
         metadata ← extractSpaceMetadata env fetch_twitter newUrl;
         mret (Some (Valid metadata), [])
       else mret (Some Invalid, lit "X Space not found or not accessible"))
      (fun _ => mret (Some Invalid, lit "Unable to validate X Space URL"))
  else mret (None, []).

End UrlForm.

(** What [handleSubmit] does: set an error, or call [onUrlSubmit(url)]. *)
Inductive SubmitOutcome := ShowError (message : jsstr) | Submit (url : jsstr).

Definition handleSubmit (url : jsstr) : SubmitOutcome :=
  if bool_decide (trim url = []) then ShowError (lit "Please enter an X Space URL")
  else if negb (validateXSpaceUrl url) then
    ShowError (lit "Please enter a valid X Space URL (e.g., https://x.com/i/spaces/1234567890)")
  else Submit url.

(** *** [XSpaceService.extractAudioUrl] *)

Definition audio_candidate (region : jsstr) (spaceId : jsstr) : jsstr :=
  lit "https://prod-fastly-" ++ region ++ lit ".video.pscp.tv/Transcoding/v1/hls/" ++ spaceId
  ++ lit "/transcode/" ++ region ++ lit "/periscope-replay-direct-prod-" ++ region
  ++ lit "-public/audio-space/master_playlist.m3u8".

(** [possibleUrls] *)
Definition possibleUrls (spaceId : jsstr) : list jsstr :=
  [audio_candidate (lit "us-west-1") spaceId; audio_candidate (lit "us-east-1") spaceId;
   audio_candidate (lit "eu-west-1") spaceId].

Definition media_url (spaceId : jsstr) : jsstr :=
  lit "https://api.twitter.com/2/spaces/" ++ spaceId ++ lit "/audio_stream".

Definition no_streams_error : Exn :=
  ErrorObj (lit "No accessible audio streams found for this X Space").

Section AudioUrl.

Variable env : Env.
Variable fetch_twitter : Request -> Exn + Response jsval.

(** [for (const url of possibleUrls) { try { ... HEAD ... } catch { continue } }] *)
Fixpoint try_candidates (urls : list jsstr) : M Request (option jsstr) :=
  match urls with
  | [] => mret None
  | url :: rest =>
      found ← try_catch
        (response ← makeApiRequest env fetch_twitter url (lit "HEAD");
         mret (match response with Some r => ok r | None => false end))
        (fun _ => mret false);
      if (found : bool) then mret (Some url) else try_candidates rest
  end.

(** The lookup of [data.audio_url] through the Twitter media endpoint;
    [None] when it falls through to the final [throw]. *)
Definition audio_stream_lookup (spaceId : jsstr) : M Request (option jsval) :=
  if token_configured env then
    try_catch
      (response ← makeApiRequest env fetch_twitter (media_url spaceId) (lit "GET");
       match response with
       | Some r =>
           if ok r then
             data ← of_sum (json r);
             if truthy (Some data) then
               audio_url ← get data (lit "audio_url");
               if truthy audio_url then mret audio_url else mret None
             else mret None
           else mret None
       | None => mret None
       end)
      (fun _ => mret None)
  else mret None.

(** [extractAudioUrl]; [data.audio_url] is returned as the JSON value it is. *)
Definition extractAudioUrl (spaceUrl : jsstr) : M Request jsval :=
  spaceId ← of_sum (extractSpaceId spaceUrl);
  found ← try_candidates (possibleUrls spaceId);
  match found with
  | Some url => mret (JStr url)
  | None =>
      v ← audio_stream_lookup spaceId;
      match v with Some v => mret v | None => throw no_streams_error end
  end.

End AudioUrl.

(** Specification helper (not in the source): the request [makeApiRequest]
    of [XSpaceService] hands to [fetch]. *)
Definition xspace_request (env : Env) (url method : jsstr) : Request :=
  if negb (str_eqb (proxyUrl env) undefined_str) && negb (str_eqb (proxyToken env) undefined_str)
  then ViaProxy (proxyUrl env) (proxyToken env) url method
  else Direct url method.

(** Specification helper (not in the source): the [HEAD] request for [url]
    resolves to a response with [ok] set. *)
Definition head_ok (env : Env) (fetch_twitter : Request -> Exn + Response jsval) (url : jsstr) : bool :=
  match fetch_twitter (xspace_request env url (lit "HEAD")) with
  | inr r => ok r
  | inl _ => false
  end.

(** *** [AudioService.extractAudioFromUrl] and [AudioService.convertToWav] *)

(** The [Response] of an audio download: [response.blob()] rejects or
    yields the data. *)
Record AudioResponse (Blob : Type) := {
  a_ok : bool;
  a_statusText : jsstr;
  blob : Exn + Blob
}.
Arguments a_ok {Blob}.
Arguments a_statusText {Blob}.
Arguments blob {Blob}.

(** [new Blob([wavBuffer], { type: 'audio/wav' })] *)
Record WavBlob := {
  blob_bytes : list Z;
  blob_type : jsstr
}.

Definition range_error : Exn := ErrorObj (lit "Offset is outside the bounds of the DataView").

Section AudioService.

Variable Blob : Type.
(** The outcome of [fetch(url)] for an audio download. *)
Variable fetch_audio : jsstr -> Exn + AudioResponse Blob.
(** [`${error}`]: the string a caught value renders to. *)
Variable error_to_string : Exn -> jsstr.
(** [await audioContext.decodeAudioData(await audioBlob.arrayBuffer())] *)
Variable decodeAudioData : Blob -> Exn + Wav.AudioBuffer.

(** [extractAudioFromUrl]; the trace lists the URLs fetched. *)
Definition extractAudioFromUrl (url : jsstr) : M jsstr Blob :=
  try_catch
    (response ← perform url (fetch_audio url);
     if negb (a_ok response) then
       throw (ErrorObj (lit "Failed to fetch audio: " ++ a_statusText response))
     else of_sum (blob response))
    (fun error =>
       throw (ErrorObj (lit "Failed to extract audio from URL: " ++ error_to_string error))).

(** [convertToWav]; a store out of the [DataView]'s bounds would throw a
    [RangeError]. *)
Definition convertToWav (audioBlob : Blob) : Exn + WavBlob :=
  match decodeAudioData audioBlob with
  | inl e => inl e
  | inr audioBuffer =>
      match Wav.audioBufferToWav audioBuffer with
      | Some wavBuffer => inr {| blob_bytes := wavBuffer; blob_type := lit "audio/wav" |}
      | None => inl range_error
      end
  end.

End AudioService.

(** *** [TranscriptionService.formatTimestamp] *)

(** [Number.prototype.toString()] of an integer: plain decimal below
    [10^21]; from [10^21] on JavaScript writes exponent notation
    ("1e+21"), which the model does not render: [None]. *)
Definition int_to_string (z : Z) : option jsstr :=
  if Z.ltb (Z.abs z) (10 ^ 21)%Z then
    Some (if Z.ltb z 0 then lit "-" ++ nat_to_string (Z.to_nat (- z)) else nat_to_string (Z.to_nat z))
  else None.

(** [s.padStart(2, '0')] *)
Definition padStart2 (s : jsstr) : jsstr := repeat 48 (2 - length s) ++ s.

(** [x % y]: the remainder of the division truncated toward zero; exact on
    doubles, as in JavaScript. *)
Definition js_mod (x y : Q) : Q := (x - y * inject_Z (Wav.Qtrunc (x / y)))%Q.

(** [seconds / 60] is a rounded division; [Math.floor] and [%] are exact.
    [None] where the model leaves [toString] out. *)
Definition formatTimestamp (seconds : Q) : option jsstr :=
  let minutes := Qfloor (Float64.fdiv seconds 60) in
  let secs := Qfloor (js_mod seconds 60) in
  match int_to_string minutes, int_to_string secs with
  | Some m, Some s => Some (padStart2 m ++ lit ":" ++ padStart2 s)
  | _, _ => None
  end.

(** Specification helpers (not in the source). *)

(** The value of a non-empty string of decimal digits. *)
Fixpoint digits_acc (s : jsstr) (acc : nat) : option nat :=
  match s with
  | [] => Some acc
  | c :: s' => if is_digit c then digits_acc s' (10 * acc + N.to_nat (c - 48))%nat else None
  end.

Definition digits_value (s : jsstr) : option nat :=
  match s with [] => None | _ => digits_acc s 0 end.

(** The labels ["Speaker 1"], ..., ["Speaker n"]. *)
Definition speaker_labels (n : nat) : list jsstr :=
  map (fun k => lit "Speaker " ++ nat_to_string (S k)) (seq 0 n).

End Services.

(* ================================================================= *)
(** * Proofs *)

(* ----------------------------------------------------------------- *)
(** ** Binary64 rounding *)

Module Float64Proofs.
Import Float64.
#[local] Open Scope Q_scope.

Lemma Qpow2_spec e : Qpow2 e == 2 ^ e.
Proof.
  unfold Qpow2. destruct (Z.leb_spec 0 e) as [He|He].
  - by rewrite Zpower_Qpower.
  - replace e with (- (- e))%Z at 2 by lia. rewrite Qpower_opp.
    change (2 # 1) with (inject_Z 2). rewrite <- Zpower_Qpower by lia.
    assert (Hp : (0 < 2 ^ (- e))%Z) by (apply Z.pow_pos_nonneg; lia).
    destruct (2 ^ (- e))%Z as [|p|p]; [lia| |lia]. reflexivity.
Qed.

Lemma Qpow2_pos e : 0 < Qpow2 e.
Proof. rewrite Qpow2_spec. by apply Qpower_0_lt. Qed.

Lemma Qpow2_add a b : Qpow2 (a + b) == Qpow2 a * Qpow2 b.
Proof. rewrite !Qpow2_spec. by apply Qpower_plus. Qed.

Lemma Qpow2_le a b : (a <= b)%Z -> Qpow2 a <= Qpow2 b.
Proof. intros H. rewrite !Qpow2_spec. apply Qpower_le_compat_l; [done|discriminate]. Qed.

Lemma Qpow2_lt_inv a b : Qpow2 a < Qpow2 b -> (a < b)%Z.
Proof. rewrite !Qpow2_spec. intros H. by apply (Qpower_lt_compat_l_inv 2). Qed.

Lemma Qpow2_nonneg e : (0 <= e)%Z -> Qpow2 e = inject_Z (2 ^ e).
Proof. intros H. unfold Qpow2. by rewrite (proj2 (Z.leb_le 0 e) H). Qed.

Lemma flog2_spec x : 0 < x -> Qpow2 (flog2 x) <= x < Qpow2 (flog2 x + 1).
Proof.
  intros Hx. destruct x as [n d]. unfold flog2. cbn [Qnum Qden].
  assert (Hn : (0 < n)%Z) by (unfold Qlt in Hx; simpl in Hx; lia).
  set (a := Z.log2 n). set (b := Z.log2 (Zpos d)).
  destruct (Z.log2_spec n Hn) as [Ha1 Ha2]. destruct (Z.log2_spec (Zpos d) eq_refl) as [Hb1 Hb2].
  fold a in Ha1, Ha2. fold b in Hb1, Hb2.
  assert (Ha0 : (0 <= a)%Z) by apply Z.log2_nonneg.
  assert (Hb0 : (0 <= b)%Z) by apply Z.log2_nonneg.
  rewrite Z.pow_succ_r in Ha2, Hb2 by done.
  set (P := Qpow2 (a - b)).
  assert (HP : P * inject_Z (2 ^ b) == inject_Z (2 ^ a)).
  { unfold P. rewrite <- !Qpow2_nonneg by done. rewrite <- Qpow2_add. by replace (a - b + b)%Z with a by lia. }
  assert (HP0 : 0 < P) by apply Qpow2_pos.
  assert (Hx' : (n # d) * inject_Z (Zpos d) == inject_Z n).
  { unfold Qeq. simpl. lia. }
  assert (HA1 : inject_Z (2 ^ a) <= inject_Z n) by (rewrite <- Zle_Qle; lia).
  assert (HA2 : inject_Z n < 2 * inject_Z (2 ^ a)).
  { change 2 with (inject_Z 2). rewrite <- inject_Z_mult, <- Zlt_Qlt. lia. }
  assert (HB1 : inject_Z (2 ^ b) <= inject_Z (Zpos d)) by (rewrite <- Zle_Qle; lia).
  assert (HB2 : inject_Z (Zpos d) < 2 * inject_Z (2 ^ b)).
  { change 2 with (inject_Z 2). rewrite <- inject_Z_mult, <- Zlt_Qlt. lia. }
  assert (HB0 : 0 < inject_Z (2 ^ b)).
  { change 0 with (inject_Z 0). rewrite <- Zlt_Qlt. apply Z.pow_pos_nonneg; lia. }
  destruct (Qle_bool P (n # d)) eqn:E.
  - apply Qle_bool_iff in E. split; [done|].
    rewrite Qpow2_add. change (Qpow2 1) with 2. fold P.
    apply (Qmult_lt_r _ _ (inject_Z (2 ^ b)) HB0).
    assert (Hxb : (n # d) * inject_Z (2 ^ b) <= (n # d) * inject_Z (Zpos d)).
    { apply Qmult_le_l; [done|done]. }
    lra.
  - assert (E' : n # d < P).
    { apply Qnot_le_lt. intros H. apply Qle_bool_iff in H. congruence. }
    replace (a - b - 1 + 1)%Z with (a - b)%Z by lia. split; [|done].
    assert (H2 : Qpow2 (a - b - 1) * 2 == P).
    { unfold P. change 2 with (Qpow2 1). rewrite <- Qpow2_add. by replace (a - b - 1 + 1)%Z with (a - b)%Z by lia. }
    set (P' := Qpow2 (a - b - 1)) in *.
    assert (HP' : 0 < P') by apply Qpow2_pos.
    apply (Qmult_le_r _ _ (2 * inject_Z (2 ^ b))); [lra|].
    assert (Hxb : (n # d) * inject_Z (Zpos d) <= (n # d) * (2 * inject_Z (2 ^ b))).
    { apply Qmult_le_l; [done|lra]. }
    assert (H3 : P' * 2 * inject_Z (2 ^ b) == inject_Z (2 ^ a)) by (rewrite H2; exact HP).
    lra.
Qed.

Lemma flog2_lt x t : 0 < x -> x < Qpow2 t -> (flog2 x < t)%Z.
Proof.
  intros Hx Ht. apply Qpow2_lt_inv. pose proof (flog2_spec x Hx). lra.
Qed.

Lemma flog2_ge x t : Qpow2 t <= x -> (t <= flog2 x)%Z.
Proof.
  intros Ht. assert (Hx : 0 < x) by (pose proof (Qpow2_pos t); lra).
  enough (t < flog2 x + 1)%Z by lia. apply Qpow2_lt_inv. pose proof (flog2_spec x Hx). lra.
Qed.

Lemma round_even_floor q : (Qfloor q <= round_even q)%Z.
Proof.
  unfold round_even. destruct (Z.compare _ _); [destruct (Z.even _)|..]; lia.
Qed.

Lemma round_even_le q : inject_Z (round_even q) <= q + (1 # 2).
Proof.
  destruct q as [n d]. unfold round_even. cbn [Qnum Qden]. unfold Qfloor.
  pose proof (Z.div_mod n (Zpos d) ltac:(lia)) as Hdm.
  pose proof (Z.mod_pos_bound n (Zpos d) ltac:(lia)) as Hr.
  set (fl := (n / Zpos d)%Z) in *. set (r := (n mod Zpos d)%Z) in *.
  assert (Hfl : inject_Z fl <= (n # d) + (1 # 2)).
  { unfold Qle, Qplus. simpl. nia. }
  assert (Hfl1 : (Zpos d <= 2 * r)%Z -> inject_Z (fl + 1) <= (n # d) + (1 # 2)).
  { intros H. unfold Qle, Qplus. simpl. nia. }
  destruct (Z.compare_spec (2 * r) (Zpos d)); [destruct (Z.even fl)|..];
    first [exact Hfl | apply Hfl1; lia].
Qed.

Lemma Qpow2_inv e : Qpow2 (- e) * Qpow2 e == 1.
Proof. rewrite <- Qpow2_add. by replace (- e + e)%Z with 0%Z by lia. Qed.

Lemma Qabs_nonneg_eq x : 0 <= x -> Qabs x = x.
Proof.
  destruct x as [n d]. unfold Qle. simpl. intros H. unfold Qabs. f_equal. lia.
Qed.

Lemma Qfloor_between (x : Q) (z : Z) :
  inject_Z z <= x -> x < inject_Z z + 1 -> Qfloor x = z.
Proof.
  intros H1 H2. pose proof (Qfloor_le x) as H3.
  assert (Hl : (z <= Qfloor x)%Z).
  { rewrite <- (Qfloor_Z z). by apply Qfloor_resp_le. }
  assert (Hu : (Qfloor x < z + 1)%Z).
  { rewrite Zlt_Qlt, inject_Z_plus. change (inject_Z 1) with 1. lra. }
  lia.
Qed.

Lemma round64_pos x : 0 < x ->
  round64 x = inject_Z (round_even (x * Qpow2 (- ulp_exp x))) * Qpow2 (ulp_exp x).
Proof.
  intros Hx. unfold round64. destruct (Qeq_bool x 0) eqn:E; [|done].
  apply Qeq_bool_iff in E. lra.
Qed.

(** Rounding moves a positive number up by at most half a last-place unit. *)
Lemma round64_upper x : 0 < x -> round64 x <= x + Qpow2 (ulp_exp x - 1).
Proof.
  intros Hx. rewrite round64_pos by done. set (e := ulp_exp x).
  pose proof (round_even_le (x * Qpow2 (- e))) as H.
  apply (Qmult_le_compat_r _ _ (Qpow2 e)) in H; [|apply Qlt_le_weak, Qpow2_pos].
  assert (H1 : x * Qpow2 (- e) * Qpow2 e == x).
  { rewrite <- Qmult_assoc, Qpow2_inv. ring. }
  assert (H2 : Qpow2 (e - 1) * Qpow2 1 == Qpow2 e).
  { rewrite <- Qpow2_add. by replace (e - 1 + 1)%Z with e by lia. }
  change (Qpow2 1) with 2 in H2. lra.
Qed.

(** Rounding never goes below an integer under [x] while the last-place
    unit is at most 1. *)
Lemma round64_lower x k : 0 < x -> (ulp_exp x <= 0)%Z -> inject_Z k <= x ->
  inject_Z k <= round64 x.
Proof.
  intros Hx He Hk. rewrite round64_pos by done. set (e := ulp_exp x) in *.
  set (y := x * Qpow2 (- e)).
  assert (Hm : (k * 2 ^ (- e) <= round_even y)%Z).
  { etransitivity; [|apply round_even_floor]. rewrite <- (Qfloor_Z (k * 2 ^ (- e))).
    apply Qfloor_resp_le. unfold y. rewrite (Qpow2_nonneg (- e)) by lia.
    rewrite inject_Z_mult. apply Qmult_le_compat_r; [done|].
    change 0 with (inject_Z 0). rewrite <- Zle_Qle. apply Z.pow_nonneg. lia. }
  rewrite Zle_Qle, inject_Z_mult in Hm.
  apply (Qmult_le_compat_r _ _ (Qpow2 e)) in Hm; [|apply Qlt_le_weak, Qpow2_pos].
  rewrite <- (Qpow2_nonneg (- e)) in Hm by lia.
  assert (H1 : inject_Z k * Qpow2 (- e) * Qpow2 e == inject_Z k).
  { rewrite <- Qmult_assoc, Qpow2_inv. ring. }
  lra.
Qed.

(** A double is an integer multiple of its last-place unit. *)
Lemma is_double_scaled s : is_double s = true -> 0 < s ->
  s == inject_Z (round_even (s * Qpow2 (- ulp_exp s))) * Qpow2 (ulp_exp s).
Proof.
  intros Hd Hs. unfold is_double in Hd. apply Qeq_bool_iff in Hd.
  rewrite round64_pos in Hd by done. by symmetry.
Qed.

(** [Math.floor(seconds / 60)] on a double below [2^53] is the floor of the
    exact quotient: the rounding of the division never reaches the next
    integer. *)
Lemma floor_fdiv_60 s : is_double s = true -> 0 <= s -> s < Qpow2 53 ->
  Qfloor (fdiv s 60) = Qfloor (s / 60).
Proof.
  intros Hd H0 H53. unfold fdiv.
  destruct (Qeq_dec s 0) as [Hz|Hz].
  { unfold round64. rewrite (proj2 (Qeq_bool_iff _ _)) by (rewrite Hz; reflexivity).
    rewrite Hz. reflexivity. }
  assert (Hs : 0 < s) by (apply Qle_lt_or_eq in H0 as [H0|H0]; [done|exfalso; apply Hz; by symmetry]).
  set (x := s / 60).
  assert (Hxs : x * 60 == s) by (unfold x; field).
  assert (Hx : 0 < x) by lra.
  set (k := Qfloor x).
  assert (Hk1 : inject_Z k <= x) by apply Qfloor_le.
  assert (Hk2 : x < inject_Z k + 1).
  { pose proof (Qlt_floor x) as H. rewrite inject_Z_plus in H. exact H. }
  assert (Hk0 : (0 <= k)%Z).
  { rewrite <- (Qfloor_Z 0). apply Qfloor_resp_le. change (inject_Z 0) with 0. lra. }
  assert (Hk0' : 0 <= inject_Z k) by (change 0 with (inject_Z 0); rewrite <- Zle_Qle; done).
  set (e := ulp_exp x).
  assert (H53' : Qpow2 53 == Qpow2 48 * 32).
  { change 32 with (Qpow2 5). by rewrite <- Qpow2_add. }
  assert (Hflx : (flog2 x < 48)%Z).
  { apply flog2_lt; [done|]. pose proof (Qpow2_pos 48). lra. }
  assert (He0 : (e <= -5)%Z).
  { unfold e, ulp_exp. rewrite Qabs_nonneg_eq by lra. lia. }
  apply Qfloor_between.
  { apply round64_lower; [done|lia|done]. }
  pose proof (round64_upper x Hx) as Hup. fold e in Hup.
  assert (Hpe : 0 < Qpow2 (e - 1)) by apply Qpow2_pos.
  destruct (Qlt_le_dec s 1) as [Hs1|Hs1].
  - assert (Hfl : (flog2 x < 0)%Z) by (apply flog2_lt; [done|change (Qpow2 0) with 1; lra]).
    assert (He' : (e - 1 <= -54)%Z).
    { unfold e, ulp_exp. rewrite Qabs_nonneg_eq by lra. lia. }
    pose proof (Qpow2_le _ _ He') as Hp.
    assert (Hp54 : Qpow2 (-54) <= 1 # 2) by (apply Qle_bool_iff; vm_compute; reflexivity).
    lra.
  - set (f := ulp_exp s).
    assert (Hfs0 : (0 <= flog2 s)%Z) by (apply flog2_ge; change (Qpow2 0) with 1; lra).
    assert (Hfs53 : (flog2 s < 53)%Z) by (apply flog2_lt; done).
    assert (Hf : f = (flog2 s - 52)%Z).
    { unfold f, ulp_exp. rewrite Qabs_nonneg_eq by lra. lia. }
    assert (Hflx' : (flog2 x < flog2 s - 4)%Z).
    { apply flog2_lt; [done|]. pose proof (proj2 (flog2_spec s Hs)) as Hsu.
      assert (H32 : Qpow2 (flog2 s + 1) == Qpow2 (flog2 s - 4) * 32).
      { change 32 with (Qpow2 5). rewrite <- Qpow2_add. by replace (flog2 s - 4 + 5)%Z with (flog2 s + 1)%Z by lia. }
      pose proof (Qpow2_pos (flog2 s - 4)). lra. }
    assert (Hef : (e + 6 <= f + 1)%Z).
    { unfold e, ulp_exp. rewrite Qabs_nonneg_eq by lra. lia. }
    assert (Hpf : Qpow2 (e - 1) * 64 <= Qpow2 f).
    { change 64 with (Qpow2 6). rewrite <- Qpow2_add. apply Qpow2_le. lia. }
    (* [s] is a multiple of its unit [Qpow2 f], and so is [60 (k + 1)] *)
    pose proof (is_double_scaled s Hd Hs) as HS. fold f in HS.
    set (S := round_even (s * Qpow2 (- f))) in HS.
    set (M := (2 ^ (- f))%Z).
    assert (HMf : inject_Z M * Qpow2 f == 1) by (unfold M; rewrite <- Qpow2_nonneg by lia; apply Qpow2_inv).
    assert (HsM : s * inject_Z M == inject_Z S).
    { rewrite HS at 1. rewrite <- Qmult_assoc, (Qmult_comm (Qpow2 f)), HMf. ring. }
    assert (HM0 : 0 < inject_Z M).
    { change 0 with (inject_Z 0). rewrite <- Zlt_Qlt. apply Z.pow_pos_nonneg; lia. }
    assert (HSK : (S < 60 * (k + 1) * M)%Z).
    { rewrite Zlt_Qlt, !inject_Z_mult, inject_Z_plus, <- HsM.
      apply Qmult_lt_r; [done|]. change (inject_Z 60) with 60. change (inject_Z 1) with 1. lra. }
    assert (HSK' : inject_Z S + 1 <= 60 * (inject_Z k + 1) * inject_Z M).
    { assert (HZ : (S + 1 <= 60 * (k + 1) * M)%Z) by lia.
      rewrite Zle_Qle, inject_Z_plus, !inject_Z_mult, inject_Z_plus in HZ. exact HZ. }
    apply (Qmult_le_compat_r _ _ (Qpow2 f)) in HSK'; [|apply Qlt_le_weak, Qpow2_pos].
    assert (E1 : 60 * (inject_Z k + 1) * inject_Z M * Qpow2 f == 60 * (inject_Z k + 1)).
    { rewrite <- Qmult_assoc, HMf. ring. }
    lra.
Qed.

End Float64Proofs.

(* ----------------------------------------------------------------- *)
(** ** Speaker labels and the speaker set *)

Lemma existsb_str_eqb s set : existsb (str_eqb s) set = true <-> s ∈ set.
Proof.
  rewrite existsb_exists, list_elem_of_In. unfold str_eqb. split.
  - intros [x [Hx Heq]]. apply bool_decide_eq_true in Heq. by subst.
  - intros H. exists s. split; [done|]. by apply bool_decide_eq_true.
Qed.

Module TranscriptionProofs.
Import Transcription.

Lemma processSegments_from_length k segs :
  length (processSegments_from k segs) = length segs.
Proof. revert k; induction segs; intros k; simpl; auto. Qed.

Lemma processSegments_from_lookup k segs i seg :
  processSegments_from k segs !! i = Some seg ->
  speaker seg = Some (lit "Speaker " ++ nat_to_string (Nat.div (k + i) 5 + 1)).
Proof.
  revert k i; induction segs as [|r segs IH]; intros k i H; [done|].
  destruct i as [|i]; simpl in H.
  - injection H as <-. simpl. by rewrite Nat.add_0_r.
  - apply IH in H. rewrite H. by replace (S k + i)%nat with (k + S i)%nat by lia.
Qed.

Lemma processSegments_lookup segs i seg :
  processSegments segs !! i = Some seg ->
  speaker seg = Some (lit "Speaker " ++ nat_to_string (Nat.div i 5 + 1)).
Proof. apply processSegments_from_lookup. Qed.

Lemma processSegments_speaker_nonempty segs seg :
  seg ∈ processSegments segs ->
  exists s, speaker seg = Some s /\ s <> [].
Proof.
  intros Hin. apply list_elem_of_lookup in Hin as [i Hi].
  apply processSegments_lookup in Hi. rewrite Hi. by eexists.
Qed.

(** [first_appearance] *)

Lemma first_appearance_lt s l :
  Some s ∈ l -> (first_appearance s l < length l)%nat.
Proof.
  induction l as [|o l IH]; simpl; intros H; [by apply elem_of_nil in H|].
  case_bool_decide; [lia|].
  apply elem_of_cons in H as [H|H]; [congruence|]. specialize (IH H). lia.
Qed.

Lemma first_appearance_app_in s l r :
  Some s ∈ l -> first_appearance s (l ++ r) = first_appearance s l.
Proof.
  induction l as [|o l IH]; simpl; intros H; [by apply elem_of_nil in H|].
  case_bool_decide; [done|].
  apply elem_of_cons in H as [H|H]; [congruence|]. by rewrite IH.
Qed.

Lemma first_appearance_app_notin s l r :
  Some s ∉ l -> first_appearance s (l ++ r) = (length l + first_appearance s r)%nat.
Proof.
  induction l as [|o l IH]; simpl; intros H; [done|].
  case_bool_decide; [subst; destruct H; apply elem_of_cons; by left|].
  rewrite IH; [done|]. intros H'. apply H. apply elem_of_cons. by right.
Qed.

Lemma identifySpeakers_fold segs : identifySpeakers segs = fold_left speakers_step segs [].
Proof. reflexivity. Qed.

Lemma speakers_inv_nil : speakers_inv [] [].
Proof.
  split; [constructor|]. split.
  - intros s. split; [intros H; by apply elem_of_nil in H|].
    intros [_ H]. by apply elem_of_nil in H.
  - intros i j a b _ H. done.
Qed.

Lemma speakers_inv_step segs set x :
  speakers_inv segs set -> speakers_inv (segs ++ [x]) (speakers_step set x).
Proof.
  intros (Hnd & Hmem & Hord).
  assert (Hold : forall a, a ∈ set ->
    first_appearance a (map speaker (segs ++ [x])) = first_appearance a (map speaker segs)).
  { intros a Ha. rewrite map_app. apply first_appearance_app_in. by apply Hmem. }
  assert (Hmem_app : forall s, Some s ∈ map speaker (segs ++ [x]) <->
                     Some s ∈ map speaker segs \/ speaker x = Some s).
  { intros s. rewrite map_app, elem_of_app. simpl.
    rewrite elem_of_cons, elem_of_nil. naive_solver. }
  assert (Hkeep : (forall s, s ∈ set <-> s <> [] /\ Some s ∈ map speaker (segs ++ [x])) ->
                  speakers_inv (segs ++ [x]) set).
  { intros Hm. split; [done|]. split; [done|].
    intros i j a b Hij Ha Hb.
    rewrite !Hold by (eapply list_elem_of_lookup_2; eauto). eauto. }
  unfold speakers_step.
  destruct (speaker x) as [s|] eqn:Hx; [destruct s as [|c s']|].
  - apply Hkeep. intros s. rewrite Hmem, Hmem_app. naive_solver.
  - unfold set_add. destruct (existsb (str_eqb (c :: s')) set) eqn:He.
    + apply existsb_str_eqb in He. apply Hkeep. intros s.
      rewrite Hmem, Hmem_app. split; [naive_solver|].
      intros [Hne [H|H]]; [auto|]. injection H as <-. by apply Hmem.
    + assert (Hnot : (c :: s') ∉ set).
      { intros Hin. apply existsb_str_eqb in Hin. congruence. }
      assert (Hnot' : Some (c :: s') ∉ map speaker segs).
      { intros Hin. apply Hnot, Hmem. split; [done|done]. }
      split; [|split].
      * apply NoDup_app. split; [done|]. split; [|apply NoDup_singleton].
        intros y Hy Hy'. apply list_elem_of_singleton in Hy'. subst. done.
      * intros s. rewrite elem_of_app, list_elem_of_singleton, Hmem, Hmem_app.
        split; [intros [[Hne H]|H]; [auto|subst; split; [done|auto]]|].
        intros [Hne [H|H]]; [auto|]. right. congruence.
      * intros i j a b Hij Ha Hb.
        assert (Hi : (i < length set)%nat).
        { apply lookup_lt_Some in Hb. rewrite length_app in Hb. simpl in Hb.
          destruct (decide (j < length set)%nat); [lia|].
          assert (j = length set) by lia. subst j. lia. }
        rewrite lookup_app_l in Ha by done.
        assert (Ha' : a ∈ set) by (eapply list_elem_of_lookup_2; eauto).
        destruct (decide (j < length set)%nat) as [Hj|Hj].
        -- rewrite lookup_app_l in Hb by done.
           rewrite !Hold by (eauto; eapply list_elem_of_lookup_2; eauto). eauto.
        -- apply lookup_lt_Some in Hb as Hb'. rewrite length_app in Hb'. simpl in Hb'.
           assert (j = length set) by lia. subst j.
           rewrite lookup_app_r, Nat.sub_diag in Hb by lia. simpl in Hb.
           injection Hb as <-. rewrite Hold by done.
           rewrite map_app, first_appearance_app_notin by done.
           pose proof (first_appearance_lt a (map speaker segs)) as Hlt.
           rewrite length_map in Hlt. apply Hmem in Ha' as [_ Ha'].
           specialize (Hlt Ha'). rewrite length_map. lia.
  - apply Hkeep. intros s. rewrite Hmem, Hmem_app. naive_solver.
Qed.

Lemma identifySpeakers_inv segs : speakers_inv segs (identifySpeakers segs).
Proof.
  rewrite identifySpeakers_fold. induction segs as [|x segs IH] using rev_ind.
  - apply speakers_inv_nil.
  - rewrite fold_left_app. by apply speakers_inv_step.
Qed.





(** C3: the segment at 0-based index [i] is labelled ["Speaker " ++ (i/5+1)];
    in particular every segment of a sequence of at most five is labelled
    ["Speaker 1"]. *)
Theorem speaker_label_by_index (segs : list RawSegment) :
  length (processSegments segs) = length segs /\
  (forall i seg, processSegments segs !! i = Some seg ->
     speaker seg = Some (lit "Speaker " ++ nat_to_string (Nat.div i 5 + 1))) /\
  ((length segs <= 5)%nat ->
     forall seg, seg ∈ processSegments segs -> speaker seg = Some (lit "Speaker 1")).
Proof.
  split; [apply processSegments_from_length|]. split; [apply processSegments_lookup|].
  intros Hlen seg Hin. apply list_elem_of_lookup in Hin as [i Hi].
  pose proof (lookup_lt_Some _ _ _ Hi) as Hlt.
  unfold processSegments in Hlt. rewrite processSegments_from_length in Hlt.
  apply processSegments_lookup in Hi. rewrite Hi.
  destruct (decide (i < 5)%nat) as [H5|H5]; [|lia].
  by rewrite (Nat.div_small i 5 H5).
Qed.

(** C6: the [speakers] of a produced transcript are exactly the distinct
    speakers of its segments, without duplicates, in the order of their
    first appearance. *)
Theorem transcript_speakers_first_appearance (data : WhisperData) :
  let t := build_result data in
  NoDup (speakers t) /\
  (forall s, s ∈ speakers t <-> exists seg, seg ∈ segments t /\ speaker seg = Some s) /\
  (forall i j a b, (i < j)%nat -> speakers t !! i = Some a -> speakers t !! j = Some b ->
     (first_appearance a (map speaker (segments t))
      < first_appearance b (map speaker (segments t)))%nat).
Proof.
  simpl. set (segs := processSegments _).
  destruct (identifySpeakers_inv segs) as (Hnd & Hmem & Hord).
  split; [done|]. split; [|done].
  intros s. rewrite Hmem, list_elem_of_In, in_map_iff. split.
  - intros [_ [seg [Hs Hin]]]. exists seg. split; [by apply list_elem_of_In|done].
  - intros [seg [Hin Hs]]. split.
    + destruct (processSegments_speaker_nonempty _ _ Hin) as [s' [Hs' Hne]]. congruence.
    + exists seg. split; [done|by apply list_elem_of_In].
Qed.



End TranscriptionProofs.

(* ----------------------------------------------------------------- *)
(** ** The confidence estimate in binary64 arithmetic *)

Module TranscriptionF64Proofs.
Import Transcription Float64.

(** A segment of the provider's response: 0 s to 2 s, "Hello world.". *)
Definition hello_segment : RawSegment :=
  {| r_start := Some 0%Q; r_end := Some 2%Q; r_text := Some (lit "Hello world.") |}.

(** C7 (code bug): the confidence of no segments is 0, but the cap at 0.95
    does not survive the averaging in binary64.  Six segments of two
    seconds reading "Hello world." each score 0.8 + 0.1 + 0.05, which
    [Math.min] caps to the double 0.95; the rounded sum of the six, divided
    by 6, is the double 8556839292003943 / 2^53 = 0.9500000000000001, above
    0.95. *)
Theorem confidence_above_cap :
  TranscriptionF64.calculateAverageConfidence [] = 0%Q /\
  Forall (fun s => TranscriptionF64.segment_confidence s = lit64 (95 # 100))
    (processSegments (repeat hello_segment 6)) /\
  (TranscriptionF64.calculateAverageConfidence (processSegments (repeat hello_segment 6))
   == 8556839292003943 # 9007199254740992)%Q /\
  (95 # 100 < TranscriptionF64.calculateAverageConfidence (processSegments (repeat hello_segment 6)))%Q.
Proof.
  split; [reflexivity|]. split; [repeat constructor; vm_compute; reflexivity|].
  split; vm_compute; reflexivity.
Qed.

End TranscriptionF64Proofs.

(* ----------------------------------------------------------------- *)
(** ** The WAV encoder *)

Module WavProofs.
Import Wav.

Lemma length_le_bytes k v : List.length (le_bytes k v) = k.
Proof. revert v; induction k; intros v; simpl; auto. Qed.

Lemma write_bytes_prefix bs (P R : list Z) :
  (List.length bs <= List.length R)%nat ->
  write_bytes (P ++ R) (List.length P) bs = P ++ bs ++ drop (List.length bs) R.
Proof.
  revert P R; induction bs as [|b bs IH]; intros P R Hlen; simpl; [done|].
  destruct R as [|r R]; simpl in Hlen; [lia|].
  rewrite insert_app_r_alt, Nat.sub_diag by lia. simpl.
  replace (P ++ b :: R) with ((P ++ [b]) ++ R) by (by rewrite <- app_assoc).
  replace (S (List.length P)) with (List.length (P ++ [b])) by (rewrite length_app; simpl; lia).
  rewrite IH by lia. by rewrite <- app_assoc.
Qed.

Lemma set_le_prefix (P R : list Z) off k v :
  List.length P = off -> (k <= List.length R)%nat ->
  set_le (P ++ R) off k v = Some (P ++ le_bytes k v ++ drop k R).
Proof.
  intros <- Hk. unfold set_le. rewrite length_app.
  replace (Nat.leb (List.length P + k) (List.length P + List.length R)) with true
    by (symmetry; apply Nat.leb_le; lia).
  rewrite write_bytes_prefix by (rewrite length_le_bytes; lia).
  by rewrite length_le_bytes.
Qed.

Lemma audioBufferToWav_header (buffer : AudioBuffer) :
  audioBufferToWav buffer =
  ('(v, _) ← write_frames
       (wav_header (length_ buffer) (numberOfChannels buffer) (sampleRate buffer)
        ++ repeat 0%Z (length_ buffer * numberOfChannels buffer * 2))
       44 0 (length_ buffer) (channelData buffer);
   Some v).
Proof. reflexivity. Qed.

Lemma write_channels_cons view off i d rest :
  write_channels view off i (d :: rest) =
  (v ← setInt16 view off (sample_value (nth i d 0%Q)); write_channels v (off + 2)%nat i rest).
Proof. reflexivity. Qed.

Lemma length_frame_bytes i chs : List.length (frame_bytes i chs) = (2 * List.length chs)%nat.
Proof.
  unfold frame_bytes. induction chs as [|d chs IH]; [done|].
  cbn [map concat]. rewrite length_app, length_le_bytes, IH. simpl. lia.
Qed.

Lemma write_channels_prefix chs (P R : list Z) i :
  (2 * List.length chs <= List.length R)%nat ->
  write_channels (P ++ R) (List.length P) i chs =
  Some (P ++ frame_bytes i chs ++ drop (2 * List.length chs) R,
        (List.length P + 2 * List.length chs)%nat).
Proof.
  revert P R; induction chs as [|d chs IH]; intros P R Hlen.
  - simpl. by rewrite Nat.add_0_r.
  - rewrite write_channels_cons. unfold setInt16.
    simpl List.length in *.
    rewrite set_le_prefix by (done || lia). cbn -[le_bytes write_channels].
    rewrite app_assoc.
    replace (List.length P + 2)%nat with (List.length (P ++ le_bytes 2 (Qtrunc (sample_value (nth i d 0%Q)))))
      by (rewrite length_app, length_le_bytes; lia).
    rewrite IH by (rewrite length_drop; lia).
    rewrite length_app, length_le_bytes, drop_drop, <- !app_assoc.
    change (frame_bytes i (d :: chs))
      with (le_bytes 2 (Qtrunc (sample_value (nth i d 0%Q))) ++ frame_bytes i chs).
    assert (E : S (List.length chs + S (List.length chs + 0)) = (2 + 2 * List.length chs)%nat) by lia.
    rewrite E, Nat.add_assoc. reflexivity.
Qed.

Lemma write_frames_prefix k chs (P R : list Z) i :
  (2 * List.length chs * k <= List.length R)%nat ->
  write_frames (P ++ R) (List.length P) i k chs =
  Some (P ++ frames_bytes i k chs ++ drop (2 * List.length chs * k) R,
        (List.length P + 2 * List.length chs * k)%nat).
Proof.
  revert P R i; induction k as [|k IH]; intros P R i Hlen.
  - simpl. rewrite !Nat.mul_0_r, Nat.add_0_r. done.
  - simpl write_frames. rewrite write_channels_prefix by lia.
    pose proof (length_frame_bytes i chs) as Hf.
    remember (2 * List.length chs)%nat as m eqn:Hm.
    cbn -[write_frames frame_bytes]. rewrite app_assoc.
    replace (List.length P + m)%nat with (List.length (P ++ frame_bytes i chs))
      by (rewrite length_app; lia).
    rewrite IH by (rewrite length_drop; lia). subst m.
    rewrite length_app, Hf, drop_drop, <- !app_assoc.
    unfold frames_bytes. cbn [seq map concat].
    replace (2 * List.length chs * S k)%nat
      with (2 * List.length chs + 2 * List.length chs * k)%nat by lia.
    by rewrite Nat.add_assoc.
Qed.

Lemma length_wav_header n c r : List.length (wav_header n c r) = 44%nat.
Proof. reflexivity. Qed.

Lemma audioBufferToWav_closed (buffer : AudioBuffer) :
  audioBufferToWav buffer =
  Some (wav_header (length_ buffer) (numberOfChannels buffer) (sampleRate buffer)
        ++ frames_bytes 0 (length_ buffer) (channelData buffer)).
Proof.
  rewrite audioBufferToWav_header.
  rewrite <- (length_wav_header (length_ buffer) (numberOfChannels buffer) (sampleRate buffer)).
  rewrite write_frames_prefix; unfold numberOfChannels; rewrite ?repeat_length; [|nia].
  cbn [mbind option_bind]. f_equal. f_equal.
  rewrite drop_ge; [apply app_nil_r|]. rewrite repeat_length. nia.
Qed.

(** Reading back a little-endian store. *)
Lemma le_value_le_bytes k v :
  le_value (le_bytes k v) = (v mod 2 ^ (8 * Z.of_nat k))%Z.
Proof.
  revert v; induction k as [|k IH]; intros v.
  - simpl. by rewrite Z.mod_1_r.
  - cbn [le_bytes le_value fold_right]. fold (le_value (le_bytes k (Z.shiftr v 8))).
    rewrite IH, Z.shiftr_div_pow2 by lia.
    change 255%Z with (Z.ones 8). rewrite Z.land_ones by lia.
    replace (8 * Z.of_nat (S k))%Z with (8 + 8 * Z.of_nat k)%Z by lia.
    rewrite Z.pow_add_r by lia. change (2 ^ 8)%Z with 256%Z.
    rewrite Z.rem_mul_r; [lia|lia|].
    apply Z.pow_pos_nonneg; lia.
Qed.

Lemma u_at_le_bytes bs off k v :
  take k (drop off bs) = le_bytes k v -> u_at bs off k = (v mod 2 ^ (8 * Z.of_nat k))%Z.
Proof. intros H. unfold u_at. by rewrite H, le_value_le_bytes. Qed.

(** A block of a concatenation of blocks of one length [m]. *)
Lemma take_drop_concat_block (L : list (list Z)) m j x :
  (forall y, y ∈ L -> List.length y = m) -> L !! j = Some x ->
  take m (drop (j * m) (concat L)) = x.
Proof.
  revert j; induction L as [|y L IH]; intros j Hm Hj; [done|].
  assert (Hy : List.length y = m) by (apply Hm, elem_of_cons; by left).
  cbn [concat]. destruct j as [|j]; simpl in Hj.
  - injection Hj as <-. rewrite drop_0, <- Hy. apply take_app_length.
  - replace (S j * m)%nat with (List.length y + j * m)%nat by (simpl; lia).
    rewrite drop_app_add. apply IH; [|done].
    intros z Hz. apply Hm, elem_of_cons. by right.
Qed.

(** Reading inside a block: [k] bytes at [a] lie within the first [m]. *)
Lemma take_drop_within (X : list Z) a k m :
  (a + k <= m)%nat -> take k (drop a X) = take k (drop a (take m X)).
Proof.
  intros H. rewrite !take_drop_commute, take_take.
  by replace (Nat.min (a + k) m) with (a + k)%nat by lia.
Qed.

Lemma frame_sample_bytes i chs ch d :
  chs !! ch = Some d ->
  take 2 (drop (2 * ch) (frame_bytes i chs))
  = le_bytes 2 (Qtrunc (sample_value (nth i d 0%Q))).
Proof.
  intros Hd. unfold frame_bytes. rewrite Nat.mul_comm.
  apply take_drop_concat_block.
  - intros y Hy. apply list_elem_of_In, in_map_iff in Hy as [e [<- _]].
    apply length_le_bytes.
  - by rewrite list_lookup_fmap, Hd.
Qed.

Lemma frames_frame_bytes n chs i :
  (i < n)%nat ->
  take (2 * List.length chs) (drop (i * (2 * List.length chs)) (frames_bytes 0 n chs))
  = frame_bytes i chs.
Proof.
  intros Hi. unfold frames_bytes. apply take_drop_concat_block.
  - intros y Hy. apply list_elem_of_In, in_map_iff in Hy as [j [<- _]].
    apply length_frame_bytes.
  - rewrite list_lookup_fmap, lookup_seq_lt by done. reflexivity.
Qed.

(** The sample conversion. *)
Lemma Qle_bool_false a b : Qle_bool a b = false -> (b < a)%Q.
Proof.
  intros H. apply Qnot_le_lt. intros Hle. apply Qle_bool_iff in Hle. congruence.
Qed.

Lemma Qle_bool_compat a b a' b' :
  (a == a')%Q -> (b == b')%Q -> Qle_bool a b = Qle_bool a' b'.
Proof.
  intros Ha Hb.
  destruct (Qle_bool a b) eqn:E; destruct (Qle_bool a' b') eqn:E'; try done.
  - apply Qle_bool_iff in E. apply Qle_bool_false in E'. lra.
  - apply Qle_bool_false in E. apply Qle_bool_iff in E'. lra.
Qed.

Lemma Qtrunc_compat p q : (p == q)%Q -> Qtrunc p = Qtrunc q.
Proof.
  intros H. unfold Qtrunc.
  rewrite (Qle_bool_compat 0 p 0 q) by (done || reflexivity).
  destruct (Qle_bool 0 q); [apply Qfloor_comp|apply Qceiling_comp]; done.
Qed.

Lemma clamp_spec_eq x : (Qmax (-1) (Qmin 1 x) == clamp_spec x)%Q.
Proof.
  unfold clamp_spec, Qltb.
  destruct (Q.max_spec (-1) (Qmin 1 x)) as [[H2 HM]|[H2 HM]]; rewrite HM;
  destruct (Q.min_spec 1 x) as [[H1 Hm]|[H1 Hm]];
  destruct (Qle_bool (-1) x) eqn:E1; cbn [negb];
  try (apply Qle_bool_iff in E1); try (apply Qle_bool_false in E1);
  try (destruct (Qle_bool x 1) eqn:E2; cbn [negb];
       try (apply Qle_bool_iff in E2); try (apply Qle_bool_false in E2));
  lra.
Qed.

Lemma clamp_spec_range x : (-1 <= clamp_spec x <= 1)%Q.
Proof.
  unfold clamp_spec, Qltb.
  destruct (Qle_bool (-1) x) eqn:E1; cbn [negb];
  [apply Qle_bool_iff in E1|apply Qle_bool_false in E1; lra].
  destruct (Qle_bool x 1) eqn:E2; cbn [negb];
  [apply Qle_bool_iff in E2|apply Qle_bool_false in E2]; lra.
Qed.

Lemma sample_value_spec x : Qtrunc (sample_value x) = pcm16_spec x.
Proof.
  unfold sample_value, pcm16_spec. cbv zeta. apply Qtrunc_compat.
  pose proof (clamp_spec_eq x) as He. unfold Qltb.
  rewrite (Qle_bool_compat 0 (Qmax (-1) (Qmin 1 x)) 0 (clamp_spec x)) by (done || reflexivity).
  destruct (Qle_bool 0 (clamp_spec x)); cbn [negb]; by rewrite He.
Qed.

Lemma Qtrunc_range v :
  (-32768 <= v <= 32767)%Q -> (-32768 <= Qtrunc v <= 32767)%Z.
Proof.
  intros [Hlo Hhi]. unfold Qtrunc. destruct (Qle_bool 0 v).
  - rewrite <- (Qfloor_Z (-32768)), <- (Qfloor_Z 32767).
    split; apply Qfloor_resp_le; done.
  - rewrite <- (Qceiling_Z (-32768)), <- (Qceiling_Z 32767).
    split; apply Qceiling_resp_le; done.
Qed.

Lemma pcm16_spec_range x : (-32768 <= pcm16_spec x <= 32767)%Z.
Proof.
  unfold pcm16_spec. apply Qtrunc_range.
  pose proof (clamp_spec_range x). unfold Qltb.
  destruct (Qle_bool 0 (clamp_spec x)) eqn:E; cbn [negb];
  [apply Qle_bool_iff in E|apply Qle_bool_false in E]; lra.
Qed.

Lemma i16_at_le_bytes bs off v :
  (-32768 <= v <= 32767)%Z -> take 2 (drop off bs) = le_bytes 2 v -> i16_at bs off = v.
Proof.
  intros Hv H. unfold i16_at. rewrite (u_at_le_bytes _ _ _ v H).
  change (2 ^ (8 * Z.of_nat 2))%Z with 65536%Z.
  destruct (Z.ltb_spec v 0).
  - rewrite <- (Z.mod_unique v 65536 (-1) (v + 65536)) by lia.
    destruct (Z.ltb_spec (v + 65536) 32768); lia.
  - rewrite Z.mod_small by lia. destruct (Z.ltb_spec v 32768); lia.
Qed.

Lemma length_frames_bytes i k chs :
  List.length (frames_bytes i k chs) = (k * (2 * List.length chs))%nat.
Proof.
  revert i; induction k as [|k IH]; intros i; [done|].
  change (frames_bytes i (S k) chs) with (frame_bytes i chs ++ frames_bytes (S i) k chs).
  rewrite length_app, IH, length_frame_bytes. lia.
Qed.

Lemma wav_sample_bytes n c r chs i ch d :
  (i < n)%nat -> List.length chs = c -> chs !! ch = Some d ->
  take 2 (drop (44 + 2 * (i * c + ch)) (wav_header n c r ++ frames_bytes 0 n chs))
  = le_bytes 2 (Qtrunc (sample_value (nth i d 0%Q))).
Proof.
  intros Hi Hc Hd. assert (Hch : (ch < c)%nat) by (subst c; by eapply lookup_lt_Some).
  rewrite <- (length_wav_header n c r) at 1. rewrite drop_app_add.
  replace (2 * (i * c + ch))%nat with (i * (2 * List.length chs) + 2 * ch)%nat by (subst c; lia).
  rewrite <- drop_drop, (take_drop_within _ (2 * ch) 2 (2 * List.length chs)) by (subst c; lia).
  rewrite frames_frame_bytes by done. by apply frame_sample_bytes.
Qed.

(** C4: encoding a buffer of [n] frames, [c] channels and sample rate [r]
    yields [44 + n*c*2] bytes: the RIFF/WAVE/fmt /data tags, the
    little-endian header fields (RIFF size [36 + dataBytes], fmt size 16,
    PCM marker 1, channel count, sample rate, byte rate [r*c*2], block
    align [c*2], 16 bits per sample, [dataBytes]) each as the low bytes of
    its field width, and at [44 + 2*(i*c + ch)] the signed 16-bit sample of
    channel [ch] at frame [i], clamped to [-1, 1] and scaled by 32768 below
    zero and by 32767 otherwise.  In particular a mono 16000 Hz buffer of
    90000 data bytes yields 44 + 90000 bytes with byte 22 equal to 1. *)
Theorem wav_encoding_layout :
  (forall buf : AudioBuffer,
    let n := length_ buf in let c := numberOfChannels buf in
    let r := sampleRate buf in let D := Z.of_nat (n * c * 2) in
    exists bs, audioBufferToWav buf = Some bs /\
      List.length bs = (44 + n * c * 2)%nat /\
      take 4 bs = char_codes "RIFF" /\
      u_at bs 4 4 = ((36 + D) mod 2 ^ 32)%Z /\
      take 4 (drop 8 bs) = char_codes "WAVE" /\
      take 4 (drop 12 bs) = char_codes "fmt " /\
      u_at bs 16 4 = 16%Z /\
      u_at bs 20 2 = 1%Z /\
      u_at bs 22 2 = (Z.of_nat c mod 2 ^ 16)%Z /\
      u_at bs 24 4 = (r mod 2 ^ 32)%Z /\
      u_at bs 28 4 = ((r * Z.of_nat c * 2) mod 2 ^ 32)%Z /\
      u_at bs 32 2 = ((Z.of_nat c * 2) mod 2 ^ 16)%Z /\
      u_at bs 34 2 = 16%Z /\
      take 4 (drop 36 bs) = char_codes "data" /\
      u_at bs 40 4 = (D mod 2 ^ 32)%Z /\
      (forall i ch, (i < n)%nat -> (ch < c)%nat ->
         i16_at bs (44 + 2 * (i * c + ch)) = pcm16_spec (getChannelData buf ch i))) /\
  (forall buf : AudioBuffer,
    numberOfChannels buf = 1%nat -> sampleRate buf = 16000%Z ->
    (length_ buf * 2 = 90000)%nat ->
    exists bs, audioBufferToWav buf = Some bs /\
      List.length bs = (44 + 90000)%nat /\ bs !! 22%nat = Some 1%Z).
Proof.
  split.
  - intros buf n c r D. rewrite audioBufferToWav_closed.
    eexists. split; [reflexivity|].
    set (F := frames_bytes 0 (length_ buf) (channelData buf)).
    split.
    { rewrite length_app, length_wav_header. unfold F. rewrite length_frames_bytes.
      unfold n, c, numberOfChannels. lia. }
    split; [reflexivity|].
    split; [by apply u_at_le_bytes|].
    split; [reflexivity|]. split; [reflexivity|].
    split; [by rewrite (u_at_le_bytes _ _ _ 16)|].
    split; [by rewrite (u_at_le_bytes _ _ _ 1)|].
    split; [by apply u_at_le_bytes|]. split; [by apply u_at_le_bytes|].
    split; [by apply u_at_le_bytes|]. split; [by apply u_at_le_bytes|].
    split; [by rewrite (u_at_le_bytes _ _ _ 16)|].
    split; [reflexivity|]. split; [by apply u_at_le_bytes|].
    intros i ch Hi Hch.
    destruct (lookup_lt_is_Some_2 (channelData buf) ch) as [d Hd]; [done|].
    apply i16_at_le_bytes; [apply pcm16_spec_range|].
    unfold getChannelData. rewrite (nth_lookup_Some _ _ _ _ Hd), <- sample_value_spec.
    by apply wav_sample_bytes.
  - intros buf Hc Hr Hn. rewrite audioBufferToWav_closed, Hc.
    eexists. split; [reflexivity|]. split.
    + rewrite length_app, length_wav_header, length_frames_bytes.
      unfold numberOfChannels in Hc. rewrite Hc. lia.
    + reflexivity.
Qed.

End WavProofs.

(* ----------------------------------------------------------------- *)
(** ** Summary response parsing *)

Module SummaryProofs.
Import Summary.

Lemma sentiment_match_valid s w :
  sentiment_match s = Some w -> w ∈ validSentiments.
Proof.
  assert (Hu : forall s0, sentiment_match s0 =
    match find (startsWith s0) validSentiments with
    | Some w => Some w
    | None => match s0 with [] => None | _ :: s' => sentiment_match s' end
    end) by (intros []; reflexivity).
  induction s as [|c s IH]; intros H; rewrite Hu in H;
    destruct (find (startsWith _) validSentiments) as [w'|] eqn:Hf.
  all: try (injection H as <-; apply find_some in Hf as [Hin _];
            by apply list_elem_of_In).
  - done.
  - exact (IH H).
Qed.

Section TextPath.
Variable to_lower : jsstr -> jsstr.

Lemma text_step_sentiment_valid st line :
  t_sentiment st ∈ validSentiments ->
  t_sentiment (text_step to_lower st line) ∈ validSentiments.
Proof.
  intros H. unfold text_step, set_section.
  repeat case_match; simpl; try done.
  eapply sentiment_match_valid; eassumption.
Qed.

Lemma text_fold_sentiment_valid lines st :
  t_sentiment st ∈ validSentiments ->
  t_sentiment (fold_left (text_step to_lower) lines st) ∈ validSentiments.
Proof.
  revert st; induction lines as [|l lines IH]; intros st H; simpl; [done|].
  apply IH. by apply text_step_sentiment_valid.
Qed.

Lemma text_fold_sentiment_neutral lines st :
  (forall line, line ∈ lines -> sentiment_match (to_lower (trim line)) = None) ->
  t_sentiment st = s_neutral ->
  t_sentiment (fold_left (text_step to_lower) lines st) = s_neutral.
Proof.
  revert st; induction lines as [|l lines IH]; intros st Hl H; simpl; [done|].
  apply IH; [intros line Hin; apply Hl; by apply elem_of_cons; right|].
  assert (Hn : sentiment_match (to_lower (trim l)) = None) by (apply Hl; by left).
  unfold text_step, set_section. rewrite Hn.
  repeat case_match; simpl; congruence.
Qed.

End TextPath.

Lemma validateSentiment_valid o :
  exists s, validateSentiment o = JStr s /\ s ∈ validSentiments.
Proof.
  unfold validateSentiment.
  destruct o as [[]|]; try (exists s_neutral; split; [done|by right; right; left]).
  destruct (existsb (str_eqb s) validSentiments) eqn:He.
  - exists s. split; [done|]. by apply existsb_str_eqb.
  - exists s_neutral. split; [done|by right; right; left].
Qed.

(** C1: [parseSummaryResponse] returns a result for every response text
    (its type has no error case), and its [sentiment] is always one of the
    four valid strings.  On the JSON path an absent or unrecognised
    [sentiment] gives ["neutral"], an absent or non-array [keyPoints],
    [topics] or [actionItems] gives the empty list, and an absent (or
    non-array) [participants] gives the caller's speakers; on the text path a
    response in which no line names a sentiment gives ["neutral"].  Holds for
    every [toLowerCase] and every [JSON.parse]. *)
Theorem parseSummaryResponse_total (to_lower : jsstr -> jsstr)
    (json_parse : jsstr -> option jsval) (content : jsstr) (speakers : list jsstr) :
  let r := parseSummaryResponse to_lower json_parse content speakers in
  (exists s, sentiment r = JStr s /\ s ∈ validSentiments) /\
  (forall m fields, brace_match content = Some m -> json_parse m = Some (JObj fields) ->
     (assoc (lit "sentiment") fields = None -> sentiment r = JStr s_neutral) /\
     (forall v, assoc (lit "sentiment") fields = Some v ->
        (forall s, v = JStr s -> s ∉ validSentiments) -> sentiment r = JStr s_neutral) /\
     (forall s, assoc (lit "sentiment") fields = Some (JStr s) -> s ∈ validSentiments ->
        sentiment r = JStr s) /\
     keyPoints r = match assoc (lit "keyPoints") fields with Some (JArr l) => l | _ => [] end /\
     topics r = match assoc (lit "topics") fields with Some (JArr l) => l | _ => [] end /\
     actionItems r = match assoc (lit "actionItems") fields with Some (JArr l) => l | _ => [] end /\
     participants r = match assoc (lit "participants") fields with
                      | Some (JArr l) => l | _ => map JStr speakers end) /\
  (brace_match content = None ->
     (forall line, line ∈ split_nl content -> sentiment_match (to_lower (trim line)) = None) ->
     sentiment r = JStr s_neutral).
Proof.
  cbv zeta. split; [|split].
  - unfold parseSummaryResponse.
    destruct (brace_match content) as [m|]; [destruct (json_parse m) as [parsed|]|].
    all: try (unfold parseTextResponse; simpl; eexists; split; [reflexivity|];
              apply text_fold_sentiment_valid; by right; right; left).
    destruct (from_parsed parsed speakers) as [r|] eqn:Hp.
    + unfold from_parsed in Hp.
      destruct (get_prop parsed (lit "summary")); [|done]; simpl in Hp.
      destruct (get_prop parsed (lit "keyPoints")); [|done]; simpl in Hp.
      destruct (get_prop parsed (lit "topics")); [|done]; simpl in Hp.
      destruct (get_prop parsed (lit "sentiment")) as [se|]; [|done]; simpl in Hp.
      destruct (get_prop parsed (lit "actionItems")); [|done]; simpl in Hp.
      destruct (get_prop parsed (lit "participants")); [|done]; simpl in Hp.
      injection Hp as <-. simpl. apply validateSentiment_valid.
    + unfold parseTextResponse; simpl; eexists; split; [reflexivity|].
      apply text_fold_sentiment_valid. by right; right; left.
  - intros m fields Hm Hj. unfold parseSummaryResponse. rewrite Hm, Hj. simpl.
    unfold validateSentiment.
    repeat split.
    + intros ->. done.
    + intros v -> Hv. destruct v; try done.
      destruct (existsb (str_eqb s) validSentiments) eqn:He; [|done].
      apply existsb_str_eqb in He. by destruct (Hv s eq_refl).
    + intros s -> Hs. apply existsb_str_eqb in Hs. by rewrite Hs.
  - intros Hm Hlines. unfold parseSummaryResponse. rewrite Hm.
    unfold parseTextResponse. simpl. f_equal.
    apply text_fold_sentiment_neutral; [|done].
    intros line Hin. apply Hlines.
    apply list_elem_of_In in Hin. apply filter_In in Hin as [Hin _].
    by apply list_elem_of_In.
Qed.

(** C5: for the response ["no json here at all"] the summary is the
    fallback text, the sentiment is ["neutral"] and the key points are the
    single placeholder, whatever [toLowerCase] and [JSON.parse] do. *)
Theorem no_json_response_fallback (to_lower : jsstr -> jsstr)
    (json_parse : jsstr -> option jsval) (speakers : list jsstr) :
  let r := parseSummaryResponse to_lower json_parse (lit "no json here at all") speakers in
  summary r = JStr summary_fallback /\
  sentiment r = JStr s_neutral /\
  keyPoints r = [JStr keypoints_fallback].
Proof.
  cbv zeta. unfold parseSummaryResponse.
  replace (brace_match (lit "no json here at all")) with (@None jsstr) by (vm_compute; reflexivity).
  unfold parseTextResponse.
  replace (List.filter _ (split_nl (lit "no json here at all")))
    with [lit "no json here at all"] by (vm_compute; reflexivity).
  cbn [fold_left]. unfold text_step, set_section.
  repeat case_match; simpl in *; try congruence; auto.
Qed.

End SummaryProofs.

(* ----------------------------------------------------------------- *)
(** ** Provider calls, metadata and the pipeline *)

Module PipelineProofs.
Import Transcription Summary Pipeline.

Lemma snd_bind {E A B} (m : M E A) (k : A -> M E B) :
  snd (m ≫= k) = match snd m with inl e => inl e | inr x => snd (k x) end.
Proof.
  destruct m as [t [e|x]]; [done|]. cbn. by destruct (k x).
Qed.

Lemma snd_try_catch {E A} (m : M E A) (h : Exn -> M E A) :
  snd (try_catch m h) = match snd m with inl e => snd (h e) | inr x => inr x end.
Proof.
  destruct m as [t [e|x]]; [|done]. cbn. by destruct (h e).
Qed.

Section Providers.

Variable env : Env.
Variable Blob : Type.
Variable fetch_whisper : Request -> Blob -> jsstr -> Exn + Response WhisperBody.
Variable fetch_chat : Request -> jsstr -> list jsstr -> Exn + Response ChatBody.
Variable to_lower : jsstr -> jsstr.
Variable json_parse : jsstr -> option jsval.

(** C9: without an API key both provider operations fail with the
    configuration error and send no request; with a key each sends exactly
    one request, and fails (always with its provider error) only when
    [fetch] rejects, the status is not ok, the body does not parse, or, for
    the summary, the completion content is absent or empty. *)
Theorem provider_error_conditions :
  (env_truthy (VITE_OPENAI_API_KEY env) = false ->
     (forall blob filename,
        transcribeAudio env Blob fetch_whisper blob filename = ([], inl config_error)) /\
     (forall transcript speakers,
        generateSummary env fetch_chat to_lower json_parse transcript speakers
        = ([], inl config_error))) /\
  (env_truthy (VITE_OPENAI_API_KEY env) = true ->
     (forall blob filename,
        let req := openai_request env transcriptions_url POST in
        fst (transcribeAudio env Blob fetch_whisper blob filename) = [req] /\
        forall e, snd (transcribeAudio env Blob fetch_whisper blob filename) = inl e ->
          (exists m, e = ErrorObj (lit "Failed to transcribe audio: " ++ m)) /\
          match fetch_whisper req blob filename with
          | inl _ => True
          | inr response => ok response = false \/ exists x, json response = inl x
          end) /\
     (forall transcript speakers,
        let req := openai_request env completions_url POST in
        fst (generateSummary env fetch_chat to_lower json_parse transcript speakers) = [req] /\
        forall e, snd (generateSummary env fetch_chat to_lower json_parse transcript speakers)
                  = inl e ->
          (exists m, e = ErrorObj (lit "Failed to generate summary: " ++ m)) /\
          match fetch_chat req transcript speakers with
          | inl _ => True
          | inr response =>
              ok response = false \/ (exists x, json response = inl x) \/
              exists data, json response = inr data /\
                           (c_content data = None \/ c_content data = Some [])
          end)).
Proof.
  split.
  - intros Hk. unfold transcribeAudio, generateSummary. rewrite Hk. done.
  - intros Hk. unfold transcribeAudio, generateSummary. rewrite Hk. cbn [negb]. split.
    + intros blob filename. set (req := openai_request env transcriptions_url POST).
      destruct (fetch_whisper req blob filename) as [x|resp]; [simpl; split; [done|]|].
      { intros e [= <-]. split; [by eexists|done]. }
      destruct (ok resp) eqn:Hok; [destruct (json resp) as [x|data] eqn:Hj|];
        simpl; rewrite ?Hok, ?Hj; simpl; (split; [done|]); intros e He; try done;
        injection He as <-; (split; [by eexists|]); eauto.
    + intros transcript speakers. set (req := openai_request env completions_url POST).
      destruct (fetch_chat req transcript speakers) as [x|resp]; [simpl; split; [done|]|].
      { intros e [= <-]. split; [by eexists|done]. }
      destruct (ok resp) eqn:Hok; [destruct (json resp) as [x|data] eqn:Hj|];
        simpl; rewrite ?Hok, ?Hj; simpl;
        [|destruct (c_content data) as [[|c s]|] eqn:Hc; simpl|];
        (split; [done|]); intros e He; try done;
        injection He as <-; (split; [by eexists|]); eauto 6.
Qed.

End Providers.

Lemma first_capture_nonempty pats url m : first_capture pats url = Some m -> m <> [].
Proof.
  induction pats as [|[pre cls] pats IH]; simpl; [done|].
  destruct (match_capture pre cls url) as [[|c m']|]; [auto|congruence|auto].
Qed.

Lemma extractSpaceId_nonempty url sid : extractSpaceId url = inr sid -> sid <> [].
Proof.
  unfold extractSpaceId. destruct url; [done|].
  destruct (first_capture patterns _) eqn:Hf; [|done].
  intros [= <-]. by eapply first_capture_nonempty.
Qed.

Ltac basic_case :=
  cbn; split; [by eexists|]; intros ? [= <-]; split; [intros ? [=]|];
  intros ? [= <-] _; repeat split.

Section Metadata.

Variable env : Env.
Variable fetch_twitter : Request -> Exn + Response jsval.

(** C10: [extractSpaceMetadata] never throws.  When no space ID can be
    extracted it returns the fallback record with id ["unknown"]; when the
    Twitter lookup is not configured or fails it returns the basic record
    with the extracted id; both have title ["X Space Recording"], host
    ["Unknown"], participant count 0, state ["ended"] and are not live. *)
Theorem extractSpaceMetadata_total (spaceUrl : jsstr) :
  (exists m, snd (extractSpaceMetadata env fetch_twitter spaceUrl) = inr m) /\
  (forall m, snd (extractSpaceMetadata env fetch_twitter spaceUrl) = inr m ->
     let fallback_fields (i : jsstr) :=
       id m = JStr i /\ title m = JStr (lit "X Space Recording") /\
       hostUsername m = JStr (lit "Unknown") /\ participantCount m = JNum 0 /\
       isLive m = false /\ state m = JStr (lit "ended") in
     (forall e, extractSpaceId spaceUrl = inl e -> fallback_fields (lit "unknown")) /\
     (forall spaceId, extractSpaceId spaceUrl = inr spaceId ->
        token_configured env = false \/ lookup_failed env fetch_twitter spaceId ->
        fallback_fields spaceId)).
Proof.
  unfold extractSpaceMetadata.
  rewrite snd_try_catch, snd_bind. cbn [snd of_sum].
  destruct (extractSpaceId spaceUrl) as [e|sid] eqn:Hid.
  - cbn. split; [by eexists|]. intros m [= <-]. split; [|done].
    intros _ _. repeat split.
  - pose proof (extractSpaceId_nonempty _ _ Hid) as Hne.
    cbv beta. rewrite bool_decide_false by done.
    destruct (token_configured env) eqn:Htok.
    + rewrite snd_try_catch, snd_bind.
      destruct (snd (makeApiRequest env fetch_twitter (space_api_url sid) (lit "GET")))
        as [e|[r|]] eqn:Hm; [basic_case| |basic_case].
      destruct (ok r) eqn:Hok; [|basic_case].
      rewrite snd_bind. destruct (json r) as [x|data] eqn:Hj; cbn [snd of_sum]; [basic_case|].
      destruct (truthy (Some data)) eqn:Ht; [|basic_case].
      rewrite snd_bind. unfold get.
      destruct (get_prop data (lit "data")) as [dd|] eqn:Hg; cbn [snd]; [|basic_case].
      destruct dd as [space|]; [|basic_case].
      cbn [snd mret M_ret]. destruct (truthy (Some space)) eqn:Htt; [|basic_case].
      destruct (snd (from_space sid data space)) as [e'|m'] eqn:Hf; [basic_case|].
      cbn. split; [by eexists|]. intros ? [= <-]. split; [intros ? [=]|].
      intros ? [= <-] [H|H]; [done|]. exfalso.
      unfold lookup_failed in H. rewrite Hm, Hok, Hj, Ht, Hg, Htt in H.
      naive_solver.
    + basic_case.
Qed.


End Metadata.

Lemma try_catch_recover {E A} (m : M E A) (x : A) :
  exists v, snd (try_catch m (fun _ => mret x)) = inr v.
Proof. rewrite snd_try_catch. destruct (snd m); eauto. Qed.

Section Orchestrator.

Variable env : Env.
Variable Blob : Type.
Variable fetch_twitter : Request -> Exn + Response jsval.
Variable fetch_whisper : Request -> Blob -> jsstr -> Exn + Response WhisperBody.
Variable fetch_chat : Request -> jsstr -> list jsstr -> Exn + Response ChatBody.
Variable to_lower : jsstr -> jsstr.
Variable json_parse : jsstr -> option jsval.
Variable to_string : jsval -> jsstr.
Variable extractAudioUrl : jsstr -> Exn + jsstr.
Variable extractAudioFromUrl : jsstr -> Exn + Blob.
Variable convertToWav : Blob -> Exn + Blob.

Local Abbreviation run := (processXSpace env Blob fetch_twitter fetch_whisper fetch_chat to_lower
                         json_parse to_string extractAudioUrl extractAudioFromUrl convertToWav).
Local Abbreviation meta := (extractSpaceMetadata env fetch_twitter).
Local Abbreviation transcribe := (transcribeAudio env Blob fetch_whisper).
Local Abbreviation summarize := (generateSummary env fetch_chat to_lower json_parse).

Lemma metadata_recovers spaceUrl : exists m, snd (meta spaceUrl) = inr m.
Proof. apply try_catch_recover. Qed.

(** C8: when no audio stream can be obtained (resolving the URL or
    fetching the audio fails) [processXSpace] fails with the unavailable
    source error, and after the metadata lookup it has called only the two
    resolution steps: neither [convertToWav] nor a later stage, nor any
    provider request.  A failure of [convertToWav], of the transcription or
    of the summary is the failure of the whole run, with that error; a run
    that succeeds has run every stage successfully and returns exactly
    their results. *)
Theorem processXSpace_stage_failures (spaceUrl : jsstr) :
  ((match extractAudioUrl spaceUrl with
    | inl _ => True
    | inr u => exists e, extractAudioFromUrl u = inl e
    end) ->
   snd (run spaceUrl) = inl unavailable_error /\
   exists calls, fst (run spaceUrl) = map Req (fst (meta spaceUrl)) ++ calls /\
                 Forall (fun ev => ev = Call ResolveAudioUrl \/ ev = Call FetchAudio) calls) /\
  (forall m u b, snd (meta spaceUrl) = inr m ->
     extractAudioUrl spaceUrl = inr u -> extractAudioFromUrl u = inr b ->
     (forall e, convertToWav b = inl e -> snd (run spaceUrl) = inl e) /\
     (forall w, convertToWav b = inr w ->
        let filename := to_string (title m) ++ lit ".wav" in
        (forall e, snd (transcribe w filename) = inl e -> snd (run spaceUrl) = inl e) /\
        (forall t e, snd (transcribe w filename) = inr t ->
           snd (summarize (tr_text t) (speakers t)) = inl e -> snd (run spaceUrl) = inl e))) /\
  (forall r, snd (run spaceUrl) = inr r ->
     exists m u b w t s,
       snd (meta spaceUrl) = inr m /\ extractAudioUrl spaceUrl = inr u /\
       extractAudioFromUrl u = inr b /\ convertToWav b = inr w /\
       snd (transcribe w (to_string (title m) ++ lit ".wav")) = inr t /\
       snd (summarize (tr_text t) (speakers t)) = inr s /\
       r = {| metadata := m; transcription := t; summary := s; audioUrl := Some u |}).
Proof.
  destruct (metadata_recovers spaceUrl) as [m Hm].
  unfold processXSpace.
  destruct (meta spaceUrl) as [tm [e|m']] eqn:Hmeta; simpl in Hm; [done|].
  injection Hm as ->. split; [|split].
  - intros Hres.
    destruct (extractAudioUrl spaceUrl) as [eu|u] eqn:Hu.
    + cbn -[transcribeAudio generateSummary lit]. split; [done|].
      eexists. split; [reflexivity|]. repeat apply Forall_cons; try apply Forall_nil; auto.
    + destruct Hres as [ef Hf].
      cbn -[transcribeAudio generateSummary lit]. rewrite Hf.
      cbn -[transcribeAudio generateSummary lit]. split; [done|].
      eexists. split; [reflexivity|]. repeat apply Forall_cons; try apply Forall_nil; auto.
  - intros m0 u b [= <-] Hu Hb. rewrite Hu.
    cbn -[transcribeAudio generateSummary lit]. rewrite Hb.
    cbn -[transcribeAudio generateSummary lit]. split.
    + intros e Hc. rewrite Hc. done.
    + intros w Hc. rewrite Hc. cbv zeta.
      cbn -[transcribeAudio generateSummary lit].
      destruct (transcribeAudio env Blob fetch_whisper w (to_string (title m) ++ lit ".wav"))
        as [tt [et|t]] eqn:Ht; cbn -[transcribeAudio generateSummary lit].
      * split; [by intros e [= ->]|]. intros ? ? [=].
      * split; [by intros ? [=]|]. intros t' e [= <-] Hs.
        destruct (generateSummary env fetch_chat to_lower json_parse (tr_text t) (speakers t))
          as [ts [es|s']] eqn:Hsum; cbn in Hs |- *; [|done].
        by injection Hs as ->.
  - intros r Hr.
    destruct (extractAudioUrl spaceUrl) as [eu|u] eqn:Hu;
      cbn -[transcribeAudio generateSummary lit] in Hr; [done|].
    destruct (extractAudioFromUrl u) as [ef|b] eqn:Hb;
      cbn -[transcribeAudio generateSummary lit] in Hr; [done|].
    destruct (convertToWav b) as [ec|w] eqn:Hc;
      cbn -[transcribeAudio generateSummary lit] in Hr; [done|].
    destruct (transcribeAudio env Blob fetch_whisper w (to_string (title m) ++ lit ".wav"))
      as [tt [et|t]] eqn:Ht; cbn -[transcribeAudio generateSummary lit] in Hr; [done|].
    destruct (generateSummary env fetch_chat to_lower json_parse (tr_text t) (speakers t))
      as [ts [es|s']] eqn:Hsum; cbn in Hr; [done|].
    injection Hr as <-.
    exists m, u, b, w, t, s'. rewrite Ht, Hsum. done.
Qed.

End Orchestrator.

End PipelineProofs.

Module ServicesProofs.
Import Transcription Summary Pipeline Services TranscriptionProofs WavProofs PipelineProofs.

Lemma nullable_sound r : nullable r = true -> in_re r [].
Proof.
  induction r; simpl; intros H; try discriminate.
  - constructor.
  - apply andb_prop in H as [H1 H2]. apply (in_cat _ _ [] []); auto.
  - apply orb_prop in H as [H|H]; [apply in_alt_l|apply in_alt_r]; auto.
  - apply in_star_nil.
Qed.

Lemma deriv_sound c r w : in_re (deriv c r) w -> in_re r (c :: w).
Proof.
  revert w; induction r as [| |p|r1 IH1 r2 IH2|r1 IH1 r2 IH2|r1 IH1]; intros w H; simpl in H.
  - inversion H.
  - inversion H.
  - destruct (p c) eqn:E; inversion H; subst. by constructor.
  - destruct (nullable r1) eqn:En.
    + inversion H; subst.
      * inversion H3; subst. apply (in_cat _ _ (c :: w1) w2); auto.
      * apply (in_cat _ _ [] (c :: w)); [by apply nullable_sound|auto].
    + inversion H; subst. apply (in_cat _ _ (c :: w1) w2); auto.
  - inversion H; subst; [apply in_alt_l|apply in_alt_r]; auto.
  - inversion H; subst. apply (in_star_cons _ (c :: w1) w2); auto.
Qed.

Lemma test_prefix_sound r s :
  test_prefix r s = true -> exists p q, s = p ++ q /\ in_re r p.
Proof.
  revert r; induction s as [|c s IH]; intros r H; simpl in H.
  - rewrite orb_false_r in H. exists [], []. split; [done|]. by apply nullable_sound.
  - apply orb_prop in H as [H|H].
    + exists [], (c :: s). split; [done|]. by apply nullable_sound.
    + destruct (IH _ H) as (p & q & -> & Hp). exists (c :: p), q. split; [done|].
      by apply deriv_sound.
Qed.

Lemma in_cat_inv r1 r2 w :
  in_re (RCat r1 r2) w -> exists w1 w2, w = w1 ++ w2 /\ in_re r1 w1 /\ in_re r2 w2.
Proof. intros H. inversion H; subst. eauto. Qed.

Lemma in_chr_inv p w : in_re (RChr p) w -> exists c, w = [c] /\ p c = true.
Proof. intros H. inversion H; subst. eauto. Qed.

Lemma in_eps_inv w : in_re REps w -> w = [].
Proof. intros H. by inversion H. Qed.

Lemma in_alt_inv r1 r2 w : in_re (RAlt r1 r2) w -> in_re r1 w \/ in_re r2 w.
Proof. intros H. inversion H; subst; auto. Qed.

Lemma in_rstr s w : in_re (rstr s) w -> w = s.
Proof.
  revert w; induction s as [|c s IH]; intros w H; simpl in H; [by apply in_eps_inv|].
  apply in_cat_inv in H as (w1 & w2 & -> & H1 & H2).
  apply in_chr_inv in H1 as (d & -> & Hd). apply N.eqb_eq in Hd as ->.
  simpl. f_equal. by apply IH.
Qed.

Lemma in_ropt r w : in_re (ropt r) w -> w = [] \/ in_re r w.
Proof. intros H. apply in_alt_inv in H as [H|H]; [by right|left; by apply in_eps_inv]. Qed.

Lemma in_rplus_chr p w : in_re (rplus (RChr p)) w -> exists c w', w = c :: w' /\ p c = true.
Proof.
  intros H. apply in_cat_inv in H as (w1 & w2 & -> & H1 & _).
  apply in_chr_inv in H1 as (c & -> & Hc). by exists c, w2.
Qed.

Lemma in_rseq_cons r rs w :
  in_re (rseq (r :: rs)) w -> exists a b, w = a ++ b /\ in_re r a /\ in_re (rseq rs) b.
Proof. apply in_cat_inv. Qed.

Lemma startsWith_app p x : startsWith (p ++ x) p = true.
Proof.
  induction p as [|c p IH]; simpl.
  - by destruct x.
  - by rewrite N.eqb_refl, IH.
Qed.

Ltac destruct_here :=
  match goal with
  | |- context [match (if ?b then ?t else []) with [] => _ | _ :: _ => _ end] =>
      destruct (if b then t else []) as [|?x ?l]
  end.

Lemma match_capture_nonempty pre cls s m : match_capture pre cls s = Some m -> m <> [].
Proof.
  induction s as [|c s IH]; cbn [match_capture]; destruct_here;
  solve [discriminate | intros [= <-]; discriminate | exact IH].
Qed.

Lemma match_capture_unfold pre cls s :
  match_capture pre cls s =
  let here := if startsWith s pre then take_while cls (drop (length pre) s) else [] in
  match here with
  | [] => match s with [] => None | _ :: s' => match_capture pre cls s' end
  | _ :: _ => Some here
  end.
Proof. destruct s; reflexivity. Qed.

Lemma match_capture_at a pre cls c R :
  cls c = true -> exists m, match_capture pre cls (a ++ pre ++ c :: R) = Some m.
Proof.
  intros Hc. induction a as [|x a IH]; rewrite match_capture_unfold; cbv zeta.
  - cbn [app]. rewrite startsWith_app, drop_app_length. cbn [take_while]. rewrite Hc. eauto.
  - destruct_here; eauto.
Qed.


Lemma first_capture_of pats url pre cls m :
  In (pre, cls) pats -> match_capture pre cls url = Some m ->
  exists m', first_capture pats url = Some m'.
Proof.
  intros Hin Hm. induction pats as [|[pre' cls'] pats IH]; [done|]. cbn [first_capture].
  destruct Hin as [[= -> ->]|Hin].
  - rewrite Hm. apply match_capture_nonempty in Hm. destruct m; [done|]. eauto.
  - destruct (match_capture pre' cls' url) as [[|x l]|]; eauto.
Qed.

Lemma extract_at url a pre cls c R :
  In (pre, cls) patterns -> cls c = true -> url = a ++ pre ++ c :: R ->
  exists spaceId, extractSpaceId url = inr spaceId.
Proof.
  intros Hin Hc ->. destruct (match_capture_at a pre cls c R Hc) as [m Hm].
  destruct (first_capture_of _ _ _ _ _ Hin Hm) as [m' Hm'].
  unfold extractSpaceId. destruct (a ++ pre ++ c :: R) eqn:E.
  - apply (f_equal length) in E. rewrite !length_app in E. simpl in E. lia.
  - rewrite Hm'. eauto.
Qed.

Ltac split_seq H :=
  repeat (let a := fresh "w" in let b := fresh "w" in let Ha := fresh "Hw" in
          apply in_rseq_cons in H as (a & b & -> & Ha & H));
  cbn [rseq fold_right] in H; apply in_eps_inv in H as ->.

Ltac pieces :=
  repeat match goal with
  | H : in_re (rstr _) _ |- _ => apply in_rstr in H as ->
  | H : in_re (rplus (RChr _)) _ |- _ =>
      let c := fresh "c" in let w := fresh "r" in let Hc := fresh "Hc" in
      apply in_rplus_chr in H as (c & w & -> & Hc)
  end.

Lemma validateXSpaceUrl_sound url :
  validateXSpaceUrl url = true ->
  (exists t, url = 104 :: t) /\ exists spaceId, extractSpaceId url = inr spaceId.
Proof.
  intros H. assert (Hex : existsb (fun pattern => test_prefix pattern url) xSpacePatterns = true)
    by (destruct url; done).
  apply existsb_exists in Hex as (pat & Hin & Ht).
  apply test_prefix_sound in Ht as (p & q & -> & Hp).
  unfold xSpacePatterns in Hin; cbn [In] in Hin.
  destruct Hin as [<-|[<-|[<-|[<-|[<-|[]]]]]]; split_seq Hp; pieces;
  (split; [eexists; reflexivity|]); rewrite ?app_nil_r.
  - apply (extract_at _ (lit "http" ++ w1 ++ lit "://" ++ w2 ++ lit "twitter.com/i")
             (lit "/spaces/") is_alnum c (r ++ q)); [by left|done|by rewrite <- ?app_assoc].
  - apply (extract_at _ (lit "http" ++ w1 ++ lit "://" ++ w2 ++ lit "x.com/i")
             (lit "/spaces/") is_alnum c (r ++ q)); [by left|done|by rewrite <- ?app_assoc].
  - apply (extract_at _ (lit "http" ++ w1 ++ lit "://")
             (lit "spaces.twitter.com/") is_alnum c (r ++ q));
      [by right; left|done|by rewrite <- ?app_assoc].
  - apply (extract_at _ (lit "http" ++ w1 ++ lit "://twitter.com/" ++ c0 :: r0)
             (lit "/status/") is_digit c (r ++ q));
      [by right; right; left|done|by rewrite <- ?app_assoc].
  - apply (extract_at _ (lit "http" ++ w1 ++ lit "://x.com/" ++ c0 :: r0)
             (lit "/status/") is_digit c (r ++ q));
      [by right; right; left|done|by rewrite <- ?app_assoc].
Qed.

Lemma trim_start_app_nonws l c : is_ws c = false -> trim_start (l ++ [c]) <> [].
Proof.
  intros Hc. induction l as [|x l IH]; cbn [app trim_start].
  - by rewrite Hc.
  - by destruct (is_ws x).
Qed.

Lemma trim_http t : trim (104 :: t) <> [].
Proof.
  unfold trim. cbn [trim_start]. replace (is_ws 104) with false by reflexivity.
  cbn [rev]. destruct (trim_start (rev t ++ [104])) as [|x l] eqn:E.
  - by apply trim_start_app_nonws in E.
  - cbn [rev]. by destruct (rev l).
Qed.

Lemma validateSpaceUrl_iff url :
  validateSpaceUrl url = true <-> exists spaceId, extractSpaceId url = inr spaceId.
Proof.
  unfold validateSpaceUrl. destruct (extractSpaceId url) as [e|sid] eqn:E.
  - split; [done|]. by intros [? ?].
  - split; [eauto|]. intros _. apply extractSpaceId_nonempty in E.
    by rewrite bool_decide_false.
Qed.

(** X1: every URL the form's filter accepts has an extractable space ID, so
    the service's [validateSpaceUrl] accepts it too. *)
Theorem url_form_filter_sound (url : jsstr) :
  validateXSpaceUrl url = true ->
  validateSpaceUrl url = true /\ exists spaceId, extractSpaceId url = inr spaceId.
Proof.
  intros H. destruct (validateXSpaceUrl_sound url H) as [_ Hid].
  split; [by apply validateSpaceUrl_iff|done].
Qed.

Lemma url_form_filter_sound_witness :
  validateXSpaceUrl (lit "https://x.com/i/spaces/1OdKrjvQ") = true /\
  validateSpaceUrl (lit "https://x.com/i/spaces/1OdKrjvQ") = true /\
  exists spaceId, extractSpaceId (lit "https://x.com/i/spaces/1OdKrjvQ") = inr spaceId.
Proof. split; [reflexivity|]. apply url_form_filter_sound. reflexivity. Defined.

(** X2: [handleSubmit] hands exactly the URLs its filter accepts, unchanged,
    to [onUrlSubmit]; a blank URL gets the prompt to enter one. *)
Theorem handleSubmit_outcome (url : jsstr) :
  (forall u, handleSubmit url = Submit u <-> u = url /\ validateXSpaceUrl url = true) /\
  (trim url = [] -> handleSubmit url = ShowError (lit "Please enter an X Space URL")) /\
  (trim url <> [] -> validateXSpaceUrl url = false ->
   handleSubmit url =
   ShowError (lit "Please enter a valid X Space URL (e.g., https://x.com/i/spaces/1234567890)")).
Proof.
  unfold handleSubmit. split; [|split].
  - intros u. destruct (validateXSpaceUrl url) eqn:Hv.
    + destruct (validateXSpaceUrl_sound url Hv) as [[t ->] _].
      rewrite bool_decide_false by apply trim_http. cbn [negb]. naive_solver.
    + destruct (bool_decide (trim url = [])); cbn [negb]; naive_solver.
  - intros H. by rewrite bool_decide_true.
  - intros H Hv. by rewrite bool_decide_false, Hv.
Qed.

Section UrlFormProofs.

Variable env : Env.
Variable fetch_twitter : Request -> Exn + Response jsval.

(** X3: [validateSpaceUrl] accepts exactly the URLs [extractSpaceId] takes
    an ID from.  For a URL it rejects, [extractSpaceMetadata] sends no
    request and returns the fallback record; for one it accepts, with no
    bearer token configured, it sends no request and returns the basic
    record of the extracted ID. *)
Theorem validateSpaceUrl_metadata (url : jsstr) :
  (validateSpaceUrl url = true <-> exists spaceId, extractSpaceId url = inr spaceId) /\
  (validateSpaceUrl url = false ->
   extractSpaceMetadata env fetch_twitter url = ([], inr fallbackMetadata)) /\
  (forall spaceId, extractSpaceId url = inr spaceId -> token_configured env = false ->
   extractSpaceMetadata env fetch_twitter url = ([], inr (basicMetadata spaceId))).
Proof.
  split; [apply validateSpaceUrl_iff|split].
  - intros H. unfold extractSpaceMetadata.
    destruct (extractSpaceId url) as [e|sid] eqn:E.
    + reflexivity.
    + exfalso. assert (validateSpaceUrl url = true) by (apply validateSpaceUrl_iff; eauto).
      congruence.
  - intros sid E Htok. unfold extractSpaceMetadata. rewrite E.
    cbn. rewrite bool_decide_false by (by eapply extractSpaceId_nonempty).
    by rewrite Htok.
Qed.

(** X4: the preview state [handleUrlChange] settles in: nothing for a URL the
    form's filter rejects, otherwise a valid result carrying the metadata
    [extractSpaceMetadata] returns.  The errors "X Space not found or not
    accessible" and "Unable to validate X Space URL" are never shown. *)
Theorem handleUrlChange_outcome (newUrl : jsstr) :
  exists st, snd (handleUrlChange env fetch_twitter newUrl) = inr st /\
  (validateXSpaceUrl newUrl = false -> st = (None, [])) /\
  (validateXSpaceUrl newUrl = true ->
   exists m, snd (extractSpaceMetadata env fetch_twitter newUrl) = inr m /\
             st = (Some (Valid m), [])).
Proof.
  unfold handleUrlChange. destruct (validateXSpaceUrl newUrl) eqn:Hv.
  - destruct (validateXSpaceUrl_sound newUrl Hv) as [[t Ht] Hid].
    assert (Hs : validateSpaceUrl newUrl = true) by by apply validateSpaceUrl_iff.
    rewrite bool_decide_false by (rewrite Ht; apply trim_http). cbn [negb andb].
    rewrite Hs, snd_try_catch, snd_bind.
    destruct (metadata_recovers env fetch_twitter newUrl) as [m Hm]. rewrite Hm.
    eexists. split; [reflexivity|]. split; [done|]. eauto.
  - rewrite andb_false_r. eexists. split; [reflexivity|]. split; [done|]. done.
Qed.

End UrlFormProofs.

Lemma startsWith_spec s p : startsWith s p = true -> s = p ++ drop (length p) s.
Proof.
  revert s; induction p as [|c p IH]; intros s H; [done|].
  destruct s as [|d s]; [done|]. cbn in H. apply andb_prop in H as [Hc H].
  apply N.eqb_eq in Hc as ->. cbn. f_equal. by apply IH.
Qed.

Lemma take_while_spec (p : N -> bool) s :
  Forall (fun c => p c = true) (take_while p s) /\ exists r, s = take_while p s ++ r.
Proof.
  induction s as [|c s [IHf [r IHr]]]; cbn [take_while]; [split; [done|by exists []]|].
  destruct (p c) eqn:E.
  - split; [by constructor|]. exists r. cbn. by f_equal.
  - split; [done|]. by exists (c :: s).
Qed.

Lemma match_capture_spec pre cls s m :
  match_capture pre cls s = Some m ->
  Forall (fun c => cls c = true) m /\ exists a b, s = a ++ pre ++ m ++ b.
Proof.
  induction s as [|c s IH]; rewrite match_capture_unfold; cbv zeta.
  - destruct (startsWith [] pre) eqn:Hs; cbn [take_while drop]; [|done].
    destruct (take_while cls (drop (length pre) [])) as [|x l] eqn:E; [done|].
    intros [= <-]. rewrite <- E. destruct (take_while_spec cls (drop (length pre) [])) as [Hf [r Hr]].
    split; [done|]. exists [], r. cbn. rewrite <- Hr. by apply startsWith_spec.
  - destruct (startsWith (c :: s) pre) eqn:Hs.
    + destruct (take_while cls (drop (length pre) (c :: s))) as [|x l] eqn:E.
      * intros H. destruct (IH H) as [Hf (a & b & ->)]. split; [done|]. by exists (c :: a), b.
      * intros [= <-]. rewrite <- E.
        destruct (take_while_spec cls (drop (length pre) (c :: s))) as [Hf [r Hr]].
        split; [done|]. exists [], r. cbn [app]. rewrite <- Hr. by apply startsWith_spec.
    + intros H. destruct (IH H) as [Hf (a & b & ->)]. split; [done|]. by exists (c :: a), b.
Qed.

Lemma first_capture_spec pats url m :
  first_capture pats url = Some m ->
  exists pre cls, In (pre, cls) pats /\ match_capture pre cls url = Some m.
Proof.
  induction pats as [|[pre cls] pats IH]; cbn [first_capture]; [done|].
  destruct (match_capture pre cls url) as [[|x l]|] eqn:E.
  - intros H. destruct (IH H) as (pre' & cls' & Hin & Hm). exists pre', cls'. by split; [right|].
  - intros [= <-]. exists pre, cls. by split; [left|].
  - intros H. destruct (IH H) as (pre' & cls' & Hin & Hm). exists pre', cls'. by split; [right|].
Qed.

(** X5: a space ID taken from a URL is a non-empty run of ASCII letters and
    digits that the URL contains right after one of the markers
    "/spaces/", "spaces.twitter.com/", "/status/" or "/i/spaces/". *)
Theorem extractSpaceId_capture (url spaceId : jsstr) :
  extractSpaceId url = inr spaceId ->
  spaceId <> [] /\ Forall (fun c => is_alnum c = true) spaceId /\
  exists a pre b, In pre (map fst patterns) /\ url = a ++ pre ++ spaceId ++ b.
Proof.
  intros H. split; [by eapply extractSpaceId_nonempty|].
  unfold extractSpaceId in H. destruct url as [|u url']; [done|].
  destruct (first_capture patterns (u :: url')) as [m|] eqn:Hf; [|done].
  injection H as <-. apply first_capture_spec in Hf as (pre & cls & Hin & Hm).
  apply match_capture_spec in Hm as [Hall (a & b & Hu)]. split.
  - unfold patterns in Hin. cbn [In] in Hin.
    destruct Hin as [[= <- <-]|[[= <- <-]|[[= <- <-]|[[= <- <-]|[]]]]]; try done.
    eapply Forall_impl; [exact Hall|]. intros c Hc. unfold is_alnum. by rewrite Hc.
  - exists a, pre, b. split; [|done]. apply in_map_iff. by exists (pre, cls).
Qed.

Lemma extractSpaceId_capture_witness :
  extractSpaceId (lit "https://x.com/i/spaces/1OdKrjvQ?s=20") = inr (lit "1OdKrjvQ") /\
  (lit "1OdKrjvQ" <> [] /\ Forall (fun c => is_alnum c = true) (lit "1OdKrjvQ") /\
   exists a pre b, In pre (map fst patterns) /\
     lit "https://x.com/i/spaces/1OdKrjvQ?s=20" = a ++ pre ++ lit "1OdKrjvQ" ++ b).
Proof. split; [reflexivity|]. apply extractSpaceId_capture. reflexivity. Defined.

(** X6: the fourth pattern of [extractSpaceId], "/i/spaces/", never decides
    the result: whenever it matches, the first pattern "/spaces/" has
    matched already. *)
Theorem extractSpaceId_fourth_pattern_redundant (url : jsstr) :
  first_capture patterns url = first_capture (take 3 patterns) url.
Proof.
  unfold patterns. cbn [take first_capture].
  destruct (match_capture (lit "/spaces/") is_alnum url) as [[|x l]|] eqn:E1;
    [by apply match_capture_nonempty in E1|reflexivity|].
  assert (E4 : match_capture (lit "/i/spaces/") is_alnum url = None).
  { destruct (match_capture (lit "/i/spaces/") is_alnum url) as [m|] eqn:E4; [|done].
    exfalso. pose proof (match_capture_nonempty _ _ _ _ E4) as Hne.
    apply match_capture_spec in E4 as [Hall (a & b & Hu)].
    destruct m as [|c m']; [done|]. apply Forall_cons in Hall as [Hc _].
    destruct (match_capture_at (a ++ lit "/i") (lit "/spaces/") is_alnum c (m' ++ b) Hc)
      as [m2 Hm2].
    assert (Hu' : url = (a ++ lit "/i") ++ lit "/spaces/" ++ c :: m' ++ b)
      by (rewrite Hu, <- app_assoc; reflexivity).
    rewrite <- Hu' in Hm2. congruence. }
  rewrite E4. reflexivity.
Qed.

Section AudioServiceProofs.

Variable Blob : Type.
Variable fetch_audio : jsstr -> Exn + AudioResponse Blob.
Variable error_to_string : Exn -> jsstr.
Variable decodeAudioData : Blob -> Exn + Wav.AudioBuffer.

(** X7: [extractAudioFromUrl] fetches exactly the given URL once; it yields the
    blob exactly when the response is ok and its body resolves, and every
    failure is rethrown as "Failed to extract audio from URL: " followed by
    the rendered inner error, which for a response that is not ok is the
    error "Failed to fetch audio: " followed by its status text. *)
Theorem extractAudioFromUrl_outcome (url : jsstr) :
  let res := extractAudioFromUrl Blob fetch_audio error_to_string url in
  fst res = [url] /\
  (forall b, snd res = inr b <->
     exists r, fetch_audio url = inr r /\ a_ok r = true /\ blob r = inr b) /\
  (forall e, snd res = inl e ->
     exists inner, e = ErrorObj (lit "Failed to extract audio from URL: " ++ error_to_string inner)) /\
  (forall e, fetch_audio url = inl e ->
     snd res = inl (ErrorObj (lit "Failed to extract audio from URL: " ++ error_to_string e))) /\
  (forall r, fetch_audio url = inr r -> a_ok r = false ->
     snd res = inl (ErrorObj (lit "Failed to extract audio from URL: "
       ++ error_to_string (ErrorObj (lit "Failed to fetch audio: " ++ a_statusText r))))) /\
  (forall r e, fetch_audio url = inr r -> a_ok r = true -> blob r = inl e ->
     snd res = inl (ErrorObj (lit "Failed to extract audio from URL: " ++ error_to_string e))).
Proof.
  cbv zeta. unfold extractAudioFromUrl, try_catch, perform, throw, of_sum, mbind, M_bind.
  destruct (fetch_audio url) as [e|r] eqn:Hf.
  - cbn. split; [done|]. split; [intros b; split; [done|intros (r & [=] & _)]|].
    split; [intros e' [= <-]; by exists e|].
    split; [by intros e' [= ->]|]. split; intros; discriminate.
  - destruct (a_ok r) eqn:Ha; cbn [negb]; [destruct (blob r) as [e|b] eqn:Hb|]; cbn.
    + split; [done|]. split; [intros b; split; [done|intros (r' & [= <-] & _ & Hb')]; congruence|].
      split; [intros e' [= <-]; by exists e|]. split; [done|].
      split; [intros r' [= <-]; congruence|]. intros r' e' [= <-] _. rewrite Hb. by intros [= ->].
    + split; [done|]. split; [intros b'; split; [intros [= <-]; by exists r|intros (r' & [= <-] & _ & Hb'); congruence]|].
      split; [done|]. split; [done|]. split; [intros r' [= <-]; congruence|].
      intros r' e' [= <-] _. congruence.
    + split; [done|]. split; [intros b; split; [done|intros (r' & [= <-] & Ha' & _); congruence]|].
      split; [intros e' [= <-]; eexists; reflexivity|]. split; [done|].
      split; [intros r' [= <-] _; reflexivity|]. intros r' e' [= <-]. congruence.
Qed.

(** X8: [convertToWav] fails exactly when decoding fails, with the decoder's
    error; a decoded buffer always gives an "audio/wav" blob (the WAV
    encoding never runs out of the buffer it allocates) whose bytes are the
    encoding of that buffer, 44 + length * channels * 2 of them. *)
Theorem convertToWav_outcome (audioBlob : Blob) :
  (forall e, decodeAudioData audioBlob = inl e ->
     convertToWav Blob decodeAudioData audioBlob = inl e) /\
  (forall buf, decodeAudioData audioBlob = inr buf ->
     exists w, convertToWav Blob decodeAudioData audioBlob = inr w /\
       blob_type w = lit "audio/wav" /\
       Wav.audioBufferToWav buf = Some (blob_bytes w) /\
       length (blob_bytes w)
       = (44 + Wav.length_ buf * Wav.numberOfChannels buf * 2)%nat).
Proof.
  unfold convertToWav. split; [by intros e ->|]. intros buf ->.
  rewrite WavProofs.audioBufferToWav_closed.
  eexists. split; [reflexivity|]. cbn [blob_type blob_bytes]. do 2 (split; [done|]).
  rewrite length_app, WavProofs.length_wav_header, WavProofs.length_frames_bytes.
  unfold Wav.numberOfChannels. lia.
Qed.

End AudioServiceProofs.

Lemma bind_inr {E A B} (t : list E) (x : A) (k : A -> M E B) :
  (t, inr x) ≫= k = (t ++ fst (k x), snd (k x)).
Proof. cbn. by destruct (k x). Qed.

Lemma bind_inl {E A B} (t : list E) (e : Exn) (k : A -> M E B) :
  ((t, inl e) : M E A) ≫= k = (t, inl e).
Proof. reflexivity. Qed.

Lemma snd_pair {A B} (a : A) (b : B) : snd (a, b) = b.
Proof. reflexivity. Qed.

Ltac simpl_M := unfold mret, M_ret, throw; cbn [Datatypes.fst Datatypes.snd app]; rewrite ?app_nil_r.

Section AudioUrlProofs.

Variable env : Env.
Variable fetch_twitter : Request -> Exn + Response jsval.

Lemma makeApiRequest_eq url method :
  makeApiRequest env fetch_twitter url method =
  ([xspace_request env url method],
   inr (match fetch_twitter (xspace_request env url method) with
        | inr r => Some r | inl _ => None end)).
Proof.
  unfold makeApiRequest, xspace_request.
  destruct (negb _ && negb _); cbn; by destruct (fetch_twitter _).
Qed.

Lemma try_candidates_spec urls :
  (Forall (fun u => head_ok env fetch_twitter u = false) urls ->
     try_candidates env fetch_twitter urls
     = (map (fun u => xspace_request env u (lit "HEAD")) urls, inr None)) /\
  (forall pre u post, urls = pre ++ u :: post ->
     Forall (fun u => head_ok env fetch_twitter u = false) pre ->
     head_ok env fetch_twitter u = true ->
     try_candidates env fetch_twitter urls
     = (map (fun u => xspace_request env u (lit "HEAD")) (pre ++ [u]), inr (Some u))).
Proof.
  induction urls as [|x urls [IHn IHs]].
  - split; [done|]. intros pre u post Hu. by destruct pre.
  - assert (Hstep : try_candidates env fetch_twitter (x :: urls) =
      if head_ok env fetch_twitter x
      then ([xspace_request env x (lit "HEAD")], inr (Some x))
      else let '(t, r) := try_candidates env fetch_twitter urls in
           (xspace_request env x (lit "HEAD") :: t, r)).
    { cbn [try_candidates]. unfold try_catch, mbind, M_bind.
      rewrite makeApiRequest_eq. unfold head_ok. cbn.
      destruct (fetch_twitter _) as [e|r]; cbn; [|destruct (ok r)]; cbn;
        [|reflexivity|]; by destruct (try_candidates env fetch_twitter urls). }
    rewrite Hstep. split.
    + intros Hall. apply Forall_cons in Hall as [Hx Hall]. rewrite Hx, (IHn Hall). done.
    + intros pre u post Hu Hpre Hok. destruct pre as [|y pre]; cbn [app] in Hu.
      * injection Hu as -> ->. by rewrite Hok.
      * injection Hu as -> Hu. apply Forall_cons in Hpre as [Hy Hpre].
        rewrite Hy, (IHs pre u post Hu Hpre Hok). done.
Qed.

Lemma audio_stream_lookup_spec spaceId :
  (token_configured env = false -> audio_stream_lookup env fetch_twitter spaceId = ([], inr None)) /\
  (token_configured env = true ->
     fst (audio_stream_lookup env fetch_twitter spaceId)
       = [xspace_request env (media_url spaceId) (lit "GET")] /\
     (snd (audio_stream_lookup env fetch_twitter spaceId) = inr None \/
      exists v, snd (audio_stream_lookup env fetch_twitter spaceId) = inr (Some v)
                /\ truthy (Some v) = true)).
Proof.
  unfold audio_stream_lookup. split; intros Ht; rewrite Ht; [done|].
  unfold try_catch, mbind, M_bind, of_sum, get, throw. rewrite makeApiRequest_eq.
  destruct (fetch_twitter _) as [e|r]; cbn -[truthy lit]; [by split; [|left]|].
  destruct (ok r); cbn -[truthy lit]; [|by split; [|left]].
  destruct (json r) as [e|data]; cbn -[truthy lit]; [by split; [|left]|].
  destruct (truthy (Some data)); cbn -[truthy lit]; [|by split; [|left]].
  destruct (get_prop data (lit "audio_url")) as [a|]; cbn -[truthy lit]; [|by split; [|left]].
  destruct (truthy a) eqn:Ha; cbn -[truthy lit]; [|by split; [|left]].
  split; [done|]. destruct a as [v|]; [right; by exists v|done].
Qed.

(** X9: [extractAudioUrl] sends one [HEAD] request per candidate stream URL,
    in the order us-west-1, us-east-1, eu-west-1, and stops at the first one
    that answers ok, returning that URL.  When none answers ok and no
    Twitter token is configured, it fails with "No accessible audio streams
    found for this X Space" after exactly the three [HEAD] requests; with a
    token, it sends one more request, a [GET] of the space's
    [audio_stream] endpoint. *)
Theorem extractAudioUrl_candidates (spaceUrl spaceId : jsstr) :
  extractSpaceId spaceUrl = inr spaceId ->
  let head u := xspace_request env u (lit "HEAD") in
  (forall pre u post, possibleUrls spaceId = pre ++ u :: post ->
     Forall (fun u => head_ok env fetch_twitter u = false) pre ->
     head_ok env fetch_twitter u = true ->
     extractAudioUrl env fetch_twitter spaceUrl = (map head (pre ++ [u]), inr (JStr u))) /\
  (Forall (fun u => head_ok env fetch_twitter u = false) (possibleUrls spaceId) ->
     (token_configured env = false ->
        extractAudioUrl env fetch_twitter spaceUrl
        = (map head (possibleUrls spaceId), inl no_streams_error)) /\
     (token_configured env = true ->
        fst (extractAudioUrl env fetch_twitter spaceUrl)
        = map head (possibleUrls spaceId)
          ++ [xspace_request env (media_url spaceId) (lit "GET")])).
Proof.
  intros Hid. cbv zeta. unfold extractAudioUrl. rewrite Hid. unfold of_sum. rewrite bind_inr.
  destruct (try_candidates_spec (possibleUrls spaceId)) as [Hnone Hsome]. split.
  - intros pre u post Hu Hpre Hok. rewrite (Hsome pre u post Hu Hpre Hok), bind_inr.
    simpl_M. reflexivity.
  - intros Hall. rewrite (Hnone Hall), bind_inr.
    destruct (audio_stream_lookup_spec spaceId) as [Hf Ht]. split.
    + intros Htok. rewrite (Hf Htok), bind_inr. simpl_M. reflexivity.
    + intros Htok. destruct (Ht Htok) as [Hfst _].
      destruct (audio_stream_lookup env fetch_twitter spaceId) as [t r]; cbn [Datatypes.fst] in Hfst; subst t.
      destruct r as [e|[v|]]; rewrite ?bind_inr, ?bind_inl; simpl_M; reflexivity.
Qed.

(** X10: [extractAudioUrl] fails only with the error of [extractSpaceId]
    (before any request) or with "No accessible audio streams found for this
    X Space"; what it returns is either a candidate stream URL whose [HEAD]
    request answered ok, or, with a Twitter token configured, a truthy
    [audio_url] value. *)
Theorem extractAudioUrl_result (spaceUrl : jsstr) :
  (forall e, extractSpaceId spaceUrl = inl e ->
     extractAudioUrl env fetch_twitter spaceUrl = ([], inl e)) /\
  (forall e, snd (extractAudioUrl env fetch_twitter spaceUrl) = inl e ->
     extractSpaceId spaceUrl = inl e \/ e = no_streams_error) /\
  (forall v, snd (extractAudioUrl env fetch_twitter spaceUrl) = inr v ->
     exists spaceId, extractSpaceId spaceUrl = inr spaceId /\
       ((exists u, In u (possibleUrls spaceId) /\ head_ok env fetch_twitter u = true /\ v = JStr u) \/
        (token_configured env = true /\ truthy (Some v) = true))).
Proof.
  unfold extractAudioUrl. destruct (extractSpaceId spaceUrl) as [e|sid] eqn:Hid.
  { split; [by intros e' [= <-]|]. split; [intros e' [= <-]; by left|done]. }
  split; [done|]. rewrite snd_bind. unfold of_sum; rewrite snd_pair.
  assert (Hc : (exists pre u post, possibleUrls sid = pre ++ u :: post /\
                 Forall (fun u => head_ok env fetch_twitter u = false) pre /\
                 head_ok env fetch_twitter u = true) \/
               Forall (fun u => head_ok env fetch_twitter u = false) (possibleUrls sid)).
  { unfold possibleUrls.
    destruct (head_ok env fetch_twitter (audio_candidate (lit "us-west-1") sid)) eqn:H1;
      [left; eexists [], _, _; split; [reflexivity|by split]|].
    destruct (head_ok env fetch_twitter (audio_candidate (lit "us-east-1") sid)) eqn:H2;
      [left; eexists [_], _, _; split; [reflexivity|by split; [constructor|]]|].
    destruct (head_ok env fetch_twitter (audio_candidate (lit "eu-west-1") sid)) eqn:H3;
      [left; eexists [_; _], _, []; split; [reflexivity|by split; [repeat constructor|]]|].
    right. by repeat constructor. }
  destruct (try_candidates_spec (possibleUrls sid)) as [Hnone Hsome].
  destruct Hc as [(pre & u & post & Hu & Hpre & Hok)|Hall].
  - rewrite (Hsome pre u post Hu Hpre Hok), bind_inr, snd_pair. unfold mret, M_ret.
    rewrite snd_pair. split; [done|].
    intros v [= <-]. exists sid. split; [done|]. left. exists u.
    split; [rewrite Hu; apply in_or_app; by right; left|done].
  - rewrite (Hnone Hall), bind_inr, snd_pair, snd_bind.
    destruct (audio_stream_lookup_spec sid) as [Hf Ht].
    destruct (token_configured env) eqn:Htok.
    + destruct (Ht eq_refl) as [_ [Hn|(v & Hv & Htr)]].
      * rewrite Hn. cbv beta iota. unfold throw. rewrite snd_pair.
        split; [intros e [= <-]; by right|done].
      * rewrite Hv. cbv beta iota. unfold mret, M_ret. rewrite snd_pair.
        split; [done|]. intros v' [= <-]. exists sid. split; [done|]. by right.
    + rewrite (Hf eq_refl), snd_pair. cbv beta iota. unfold throw. rewrite snd_pair.
      split; [intros e [= <-]; by right|done].
Qed.

End AudioUrlProofs.

Definition witness_env : Env :=
  {| VITE_OPENAI_API_KEY := None; VITE_PROXY_SERVER_URL := None;
     VITE_PROXY_SERVER_ACCESS_TOKEN := None; VITE_TWITTER_BEARER_TOKEN := None |}.

Definition witness_fetch_twitter (req : Request) : Exn + Response jsval :=
  match req with
  | Direct url _ =>
      if str_eqb url (audio_candidate (lit "us-east-1") (lit "1abc"))
      then inr {| ok := true; statusText := lit "OK"; json := inr JNull |}
      else inl NonError
  | _ => inl NonError
  end.

Lemma extractAudioUrl_candidates_witness :
  extractSpaceId (lit "https://x.com/i/spaces/1abc") = inr (lit "1abc") /\
  let head u := xspace_request witness_env u (lit "HEAD") in
  (forall pre u post, possibleUrls (lit "1abc") = pre ++ u :: post ->
     Forall (fun u => head_ok witness_env witness_fetch_twitter u = false) pre ->
     head_ok witness_env witness_fetch_twitter u = true ->
     extractAudioUrl witness_env witness_fetch_twitter (lit "https://x.com/i/spaces/1abc")
     = (map head (pre ++ [u]), inr (JStr u))) /\
  (Forall (fun u => head_ok witness_env witness_fetch_twitter u = false) (possibleUrls (lit "1abc")) ->
     (token_configured witness_env = false ->
        extractAudioUrl witness_env witness_fetch_twitter (lit "https://x.com/i/spaces/1abc")
        = (map head (possibleUrls (lit "1abc")), inl no_streams_error)) /\
     (token_configured witness_env = true ->
        fst (extractAudioUrl witness_env witness_fetch_twitter (lit "https://x.com/i/spaces/1abc"))
        = map head (possibleUrls (lit "1abc"))
          ++ [xspace_request witness_env (media_url (lit "1abc")) (lit "GET")])).
Proof.
  split; [reflexivity|].
  apply (extractAudioUrl_candidates witness_env witness_fetch_twitter). reflexivity.
Defined.

Lemma digits_acc_units d acc :
  digits_acc (uint_units d) acc = Some (Nat.of_uint_acc d acc).
Proof.
  revert acc; induction d as [|d IH|d IH|d IH|d IH|d IH|d IH|d IH|d IH|d IH|d IH]; intros acc;
    [reflexivity|..]; cbn [uint_units digits_acc Nat.of_uint_acc]; rewrite Nat.tail_mul_spec;
    unfold is_digit; cbn -[Nat.mul Nat.add Nat.of_uint_acc]; rewrite IH; do 2 f_equal;
    match goal with |- context [N.to_nat ?x] =>
      let v := eval vm_compute in (N.to_nat x) in change (N.to_nat x) with v end; lia.
Qed.

Lemma digits_acc_zeros k s :
  digits_acc (repeat 48 k ++ s) 0 = digits_acc s 0.
Proof. induction k as [|k IH]; [done|]. exact IH. Qed.

Lemma length_padStart2 s : length (padStart2 s) = Nat.max 2 (length s).
Proof. unfold padStart2. rewrite length_app, repeat_length. lia. Qed.

Lemma digits_value_padStart2 n : digits_value (padStart2 (nat_to_string n)) = Some n.
Proof.
  destruct (padStart2 (nat_to_string n)) as [|c s] eqn:E.
  { pose proof (length_padStart2 (nat_to_string n)) as Hl. rewrite E in Hl. cbn in Hl. lia. }
  unfold digits_value. rewrite <- E. unfold padStart2. rewrite digits_acc_zeros.
  unfold nat_to_string. rewrite digits_acc_units. f_equal. apply DecimalNat.Unsigned.of_to.
Qed.

Lemma length_nat_to_string_small n : (n < 60)%nat -> (length (nat_to_string n) <= 2)%nat.
Proof. intros Hn. do 60 (destruct n as [|n]; [vm_compute; lia|]). lia. Qed.

(** X11: for a double [seconds] with [0 <= seconds < 2^53], [formatTimestamp]
    writes "mm:ss": at least two decimal digits of minutes, a colon and
    exactly two decimal digits of seconds, with the seconds below 60 and
    60 * minutes + seconds equal to the whole number of seconds (the
    fraction is dropped); the rounding of [seconds / 60] never carries the
    minutes over. *)
Theorem formatTimestamp_shape (seconds : Q) :
  Float64.is_double seconds = true -> (0 <= seconds)%Q -> (seconds < Float64.Qpow2 53)%Q ->
  exists mm ss, formatTimestamp seconds = Some (mm ++ lit ":" ++ ss) /\
    (2 <= length mm)%nat /\ length ss = 2%nat /\
    exists m sec, digits_value mm = Some m /\ digits_value ss = Some sec /\
      (sec < 60)%nat /\ Z.of_nat (60 * m + sec) = Qfloor seconds.
Proof.
  intros Hd Hpos H53.
  set (k := Qfloor (seconds / 60)).
  assert (Hs : (seconds == seconds / 60 * 60)%Q) by field.
  pose proof (Qfloor_le (seconds / 60)) as Hk1. pose proof (Qlt_floor (seconds / 60)) as Hk2.
  fold k in Hk1, Hk2. rewrite inject_Z_plus in Hk2. change (inject_Z 1) with 1%Q in Hk2.
  assert (Ht : Wav.Qtrunc (seconds / 60) = k).
  { unfold Wav.Qtrunc. replace (Qle_bool 0 (seconds / 60)) with true; [done|].
    symmetry. apply Qle_bool_iff. apply Qle_shift_div_l; [reflexivity|]. lra. }
  set (f := Qfloor seconds).
  pose proof (Qfloor_le seconds) as Hf1. pose proof (Qlt_floor seconds) as Hf2.
  fold f in Hf1, Hf2. rewrite inject_Z_plus in Hf2. change (inject_Z 1) with 1%Q in Hf2.
  assert (Hsec : Qfloor (js_mod seconds 60) = (f - 60 * k)%Z).
  { unfold js_mod. rewrite Ht. apply Float64Proofs.Qfloor_between;
      rewrite <- Z.add_opp_r, inject_Z_plus, inject_Z_opp, inject_Z_mult;
      change (inject_Z 60) with 60%Q; lra. }
  assert (Hk0 : (0 <= k)%Z).
  { rewrite <- (Qfloor_Z 0). apply Qfloor_resp_le. apply Qle_shift_div_l; [reflexivity|].
    change (inject_Z 0) with 0%Q. lra. }
  assert (Hlo : (60 * k <= f)%Z).
  { rewrite <- (Qfloor_Z (60 * k)). apply Qfloor_resp_le.
    rewrite inject_Z_mult. change (inject_Z 60) with 60%Q. lra. }
  assert (Hhi : (f < 60 * k + 60)%Z).
  { rewrite Zlt_Qlt, inject_Z_plus, inject_Z_mult. change (inject_Z 60) with 60%Q. lra. }
  assert (Hkmax : (k < 10 ^ 21)%Z).
  { change (Float64.Qpow2 53) with (inject_Z 9007199254740992) in H53.
    assert (Hq : (inject_Z k < inject_Z 9007199254740992)%Q) by lra.
    rewrite <- Zlt_Qlt in Hq. lia. }
  unfold formatTimestamp. cbv zeta.
  rewrite (Float64Proofs.floor_fdiv_60 seconds Hd Hpos H53). fold k. rewrite Hsec.
  unfold int_to_string.
  rewrite (proj2 (Z.ltb_lt (Z.abs k) (10 ^ 21))) by lia.
  rewrite (proj2 (Z.ltb_lt (Z.abs (f - 60 * k)) (10 ^ 21))) by lia.
  rewrite (proj2 (Z.ltb_ge k 0)) by lia. rewrite (proj2 (Z.ltb_ge (f - 60 * k) 0)) by lia.
  eexists _, _. split; [reflexivity|].
  rewrite !length_padStart2. split; [lia|].
  split; [pose proof (length_nat_to_string_small (Z.to_nat (f - 60 * k))); lia|].
  exists (Z.to_nat k), (Z.to_nat (f - 60 * k)).
  rewrite !digits_value_padStart2. do 2 (split; [done|]). split; lia.
Qed.

Lemma formatTimestamp_shape_witness :
  Float64.is_double (7451 # 2) = true /\ (0 <= 7451 # 2)%Q /\ (7451 # 2 < Float64.Qpow2 53)%Q /\
  exists mm ss, formatTimestamp (7451 # 2) = Some (mm ++ lit ":" ++ ss) /\
    (2 <= length mm)%nat /\ length ss = 2%nat /\
    exists m sec, digits_value mm = Some m /\ digits_value ss = Some sec /\
      (sec < 60)%nat /\ Z.of_nat (60 * m + sec) = Qfloor (7451 # 2).
Proof.
  assert (Hd : Float64.is_double (7451 # 2) = true) by (vm_compute; reflexivity).
  assert (H0 : (0 <= 7451 # 2)%Q) by (vm_compute; discriminate).
  assert (H53 : (7451 # 2 < Float64.Qpow2 53)%Q) by (vm_compute; reflexivity).
  split; [exact Hd|]. split; [exact H0|]. split; [exact H53|].
  exact (formatTimestamp_shape (7451 # 2) Hd H0 H53).
Defined.

Lemma nat_to_string_inj a b : nat_to_string a = nat_to_string b -> a = b.
Proof.
  intros H. assert (Hd : digits_acc (nat_to_string a) 0 = digits_acc (nat_to_string b) 0)
    by now rewrite H.
  unfold nat_to_string in Hd. rewrite !digits_acc_units in Hd. injection Hd as Hd.
  change (Nat.of_uint (Nat.to_uint a) = Nat.of_uint (Nat.to_uint b)) in Hd.
  by rewrite !DecimalNat.Unsigned.of_to in Hd.
Qed.

Lemma elem_of_speaker_labels s m :
  s ∈ speaker_labels m <-> exists k, (k < m)%nat /\ s = lit "Speaker " ++ nat_to_string (S k).
Proof.
  unfold speaker_labels. rewrite list_elem_of_In, in_map_iff. split.
  - intros (k & <- & Hk). apply in_seq in Hk. exists k. split; [lia|done].
  - intros (k & Hk & ->). exists k. split; [done|]. apply in_seq. lia.
Qed.

Lemma processSegments_from_app k a b :
  processSegments_from k (a ++ b)
  = processSegments_from k a ++ processSegments_from (k + length a) b.
Proof.
  revert k; induction a as [|x a IH]; intros k; cbn [app processSegments_from length].
  - by rewrite Nat.add_0_r.
  - rewrite IH. by replace (S k + length a)%nat with (k + S (length a))%nat by lia.
Qed.

Lemma identifySpeakers_processSegments segs :
  identifySpeakers (processSegments segs) = speaker_labels ((length segs + 4) / 5).
Proof.
  induction segs as [|x segs IH] using rev_ind; [reflexivity|].
  unfold processSegments in *. rewrite processSegments_from_app, identifySpeakers_fold,
    fold_left_app, <- identifySpeakers_fold, IH. cbn [processSegments_from fold_left Nat.add].
  set (n := length segs). rewrite length_app. cbn [length]. fold n.
  change (speakers_step (speaker_labels ((n + 4) / 5)) _)
    with (set_add (lit "Speaker " ++ nat_to_string (n / 5 + 1)) (speaker_labels ((n + 4) / 5))).
  unfold set_add.
  pose proof (Nat.div_mod_eq n 5). pose proof (Nat.mod_upper_bound n 5 ltac:(lia)).
  pose proof (Nat.div_mod_eq (n + 4) 5). pose proof (Nat.mod_upper_bound (n + 4) 5 ltac:(lia)).
  pose proof (Nat.div_mod_eq (n + 1 + 4) 5). pose proof (Nat.mod_upper_bound (n + 1 + 4) 5 ltac:(lia)).
  clearbody n. destruct (existsb (str_eqb _) _) eqn:E.
  - apply existsb_str_eqb, elem_of_speaker_labels in E as (k & Hk & Heq).
    apply app_inv_head, nat_to_string_inj in Heq.
    f_equal. lia.
  - replace ((n + 1 + 4) / 5)%nat with (S ((n + 4) / 5)).
    + unfold speaker_labels. rewrite seq_S, map_app. cbn [map Nat.add].
      replace (n / 5 + 1)%nat with (S ((n + 4) / 5)); [reflexivity|].
      enough ((n + 4) / 5 = n / 5)%nat by lia.
      destruct (decide (n mod 5 = 0)%nat) as [Hr|Hr]; [lia|]. exfalso.
      apply not_true_iff_false in E. apply E, existsb_str_eqb, elem_of_speaker_labels.
      exists (n / 5)%nat. split; [lia|]. by rewrite Nat.add_1_r.
    + destruct (decide (n mod 5 = 0)%nat) as [Hr|Hr]; [lia|]. exfalso.
      apply not_true_iff_false in E. apply E, existsb_str_eqb, elem_of_speaker_labels.
      exists (n / 5)%nat. split; [lia|]. by rewrite Nat.add_1_r.
Qed.

(** X12: the speakers of a transcript are "Speaker 1", ..., "Speaker m", in
    this order, where m is the number of segments divided by five and
    rounded up; no other label appears. *)
Theorem transcript_speakers_labels (data : WhisperData) :
  speakers (build_result data)
  = speaker_labels ((length (segments (build_result data)) + 4) / 5).
Proof.
  unfold build_result. cbn [speakers segments].
  rewrite identifySpeakers_processSegments. unfold processSegments.
  by rewrite processSegments_from_length.
Qed.

Lemma Qtrunc_inject_Z k : Wav.Qtrunc (inject_Z k) = k.
Proof. unfold Wav.Qtrunc. destruct (Qle_bool 0 _); [apply Qfloor_Z|apply Qceiling_Z]. Qed.

Lemma sample_value_grid (x : Q) (k : Z) :
  ((0 <= k <= 32767)%Z /\ (x == k # 32767)%Q) \/ ((-32768 <= k < 0)%Z /\ (x == k # 32768)%Q) ->
  Wav.Qtrunc (Wav.sample_value x) = k.
Proof.
  rewrite sample_value_spec. unfold Wav.pcm16_spec, Wav.clamp_spec, Wav.Qltb. cbv zeta.
  intros [[Hk Hx]|[Hk Hx]].
  - assert (Hx' : (x == inject_Z k * (1 # 32767))%Q) by (rewrite Hx; unfold Qeq; cbn; lia).
    assert (H0 : (0 <= inject_Z k)%Q) by (change 0%Q with (inject_Z 0); rewrite <- Zle_Qle; lia).
    assert (H1 : (inject_Z k <= 32767)%Q)
      by (change 32767%Q with (inject_Z 32767); rewrite <- Zle_Qle; lia).
    replace (Qle_bool (-1) x) with true by (symmetry; apply Qle_bool_iff; lra).
    replace (Qle_bool x 1) with true by (symmetry; apply Qle_bool_iff; lra).
    cbn [negb]. replace (Qle_bool 0 x) with true by (symmetry; apply Qle_bool_iff; lra).
    cbn [negb]. transitivity (Wav.Qtrunc (inject_Z k)); [|apply Qtrunc_inject_Z].
    apply Qtrunc_compat. rewrite Hx'. field.
  - assert (Hx' : (x == inject_Z k * (1 # 32768))%Q) by (rewrite Hx; unfold Qeq; cbn; lia).
    assert (H0 : (inject_Z k <= -1)%Q) by (change (-1)%Q with (inject_Z (-1)); rewrite <- Zle_Qle; lia).
    assert (H1 : (-32768 <= inject_Z k)%Q)
      by (change (-32768)%Q with (inject_Z (-32768)); rewrite <- Zle_Qle; lia).
    replace (Qle_bool (-1) x) with true by (symmetry; apply Qle_bool_iff; lra).
    replace (Qle_bool x 1) with true by (symmetry; apply Qle_bool_iff; lra).
    cbn [negb]. replace (Qle_bool 0 x) with false.
    + cbn [negb]. transitivity (Wav.Qtrunc (inject_Z k)); [|apply Qtrunc_inject_Z].
    apply Qtrunc_compat. rewrite Hx'. field.
    + symmetry. apply not_true_iff_false. rewrite Qle_bool_iff. lra.
Qed.

(** X13: the WAV encoding is lossless on the 16-bit grid: a sample equal to
    k/32767 with 0 <= k <= 32767, or to k/32768 with -32768 <= k < 0, is
    read back from its two bytes in the data section as the signed 16-bit
    value k. *)
Theorem wav_sample_roundtrip (buf : Wav.AudioBuffer) (i ch : nat) (d : list Q) (k : Z) :
  (i < Wav.length_ buf)%nat ->
  Wav.channelData buf !! ch = Some d ->
  ((0 <= k <= 32767)%Z /\ (nth i d 0%Q == k # 32767)%Q) \/
  ((-32768 <= k < 0)%Z /\ (nth i d 0%Q == k # 32768)%Q) ->
  exists bs, Wav.audioBufferToWav buf = Some bs /\
    Wav.i16_at bs (44 + 2 * (i * Wav.numberOfChannels buf + ch)) = k.
Proof.
  intros Hi Hd Hk. rewrite audioBufferToWav_closed. eexists. split; [reflexivity|].
  pose proof (sample_value_grid _ _ Hk) as Hs.
  apply i16_at_le_bytes; [destruct Hk as [[? _]|[? _]]; lia|].
  rewrite (wav_sample_bytes _ _ _ _ i ch d Hi eq_refl Hd). by rewrite Hs.
Qed.

Lemma wav_sample_roundtrip_witness :
  (0 < Wav.length_ {| Wav.length_ := 1; Wav.sampleRate := 8000; Wav.channelData := [[100 # 32767]] |})%nat /\
  Wav.channelData {| Wav.length_ := 1; Wav.sampleRate := 8000; Wav.channelData := [[100 # 32767]] |} !! 0%nat
    = Some [100 # 32767]%Q /\
  exists bs, Wav.audioBufferToWav
               {| Wav.length_ := 1; Wav.sampleRate := 8000; Wav.channelData := [[100 # 32767]] |}
             = Some bs /\ Wav.i16_at bs 44 = 100%Z.
Proof.
  split; [cbn; lia|]. split; [reflexivity|].
  apply (wav_sample_roundtrip
           {| Wav.length_ := 1; Wav.sampleRate := 8000; Wav.channelData := [[100 # 32767]] |}
           0 0 [100 # 32767]%Q 100); [cbn; lia|reflexivity|].
  left. split; [lia|reflexivity].
Defined.

Section TextResponse.

Variable to_lower : jsstr -> jsstr.

(** The list of bullet items a line contributes when it is collected. *)
Definition bullet_items (lines : list jsstr) : list jsstr :=
  map (fun line => strip_bullet (trim line)) (List.filter (fun line => bulleted (trim line)) lines).

Ltac step_cases :=
  unfold text_step; cbv zeta;
  repeat (case_match; cbn [t_keyPoints t_topics t_actionItems set_section]; auto).

Lemma text_step_keyPoints st line :
  t_keyPoints (text_step to_lower st line) = t_keyPoints st \/
  (bulleted (trim line) = true /\
   t_keyPoints (text_step to_lower st line) = t_keyPoints st ++ [strip_bullet (trim line)]).
Proof. step_cases. Qed.

Lemma text_step_topics st line :
  t_topics (text_step to_lower st line) = t_topics st \/
  (bulleted (trim line) = true /\
   t_topics (text_step to_lower st line) = t_topics st ++ [strip_bullet (trim line)]).
Proof. step_cases. Qed.

Lemma text_step_actionItems st line :
  t_actionItems (text_step to_lower st line) = t_actionItems st \/
  (bulleted (trim line) = true /\
   t_actionItems (text_step to_lower st line) = t_actionItems st ++ [strip_bullet (trim line)]).
Proof. step_cases. Qed.

Lemma bullet_items_app l1 l2 : bullet_items (l1 ++ l2) = bullet_items l1 ++ bullet_items l2.
Proof. unfold bullet_items. by rewrite List.filter_app, map_app. Qed.

Lemma fold_collects (proj : text_state -> list jsstr) :
  (forall st line, proj (text_step to_lower st line) = proj st \/
     (bulleted (trim line) = true /\
      proj (text_step to_lower st line) = proj st ++ [strip_bullet (trim line)])) ->
  forall lines st, proj (fold_left (text_step to_lower) lines st) `sublist_of` proj st ++ bullet_items lines.
Proof.
  intros Hstep lines. induction lines as [|x lines IH] using rev_ind; intros st.
  - cbn. by rewrite app_nil_r.
  - rewrite fold_left_app, bullet_items_app, app_assoc. cbn [fold_left].
    destruct (Hstep (fold_left (text_step to_lower) lines st) x) as [->|[Hb ->]].
    + by apply sublist_inserts_r.
    + unfold bullet_items at 2. cbn [List.filter]. rewrite Hb. cbn [map].
      by apply sublist_app; [|done].
Qed.

Lemma bullet_items_filter_sublist (q : jsstr -> bool) lines :
  bullet_items (List.filter q lines) `sublist_of` bullet_items lines.
Proof.
  induction lines as [|x lines IH]; [done|]. cbn [List.filter].
  unfold bullet_items in *. destruct (q x); cbn [List.filter];
    destruct (bulleted (trim x)); cbn [map]; auto using sublist_skip, sublist_cons.
Qed.

(** X14: on the plain-text path of the summary parser, the key points, the
    topics and the action items are each taken, in order, from the bulleted
    lines of the response: every item is a distinct line that starts with
    "-" or "•" once trimmed, with that bullet and the blanks after it
    removed.  The key points and topics are replaced by a single placeholder
    when none is found. *)
Theorem parseTextResponse_bullets (content : jsstr) (speakers : list jsstr) :
  let r := parseTextResponse to_lower content speakers in
  let items := bullet_items (split_nl content) in
  (keyPoints r = [JStr keypoints_fallback] \/
   exists l, l <> [] /\ keyPoints r = map JStr l /\ l `sublist_of` items) /\
  (topics r = [JStr topics_fallback] \/
   exists l, l <> [] /\ topics r = map JStr l /\ l `sublist_of` items) /\
  (exists l, actionItems r = map JStr l /\ l `sublist_of` items).
Proof.
  cbv zeta. unfold parseTextResponse. cbv zeta. cbn [keyPoints topics actionItems].
  set (L := List.filter _ (split_nl content)).
  set (st := fold_left (text_step to_lower) L text_init).
  assert (HL : bullet_items L `sublist_of` bullet_items (split_nl content))
    by apply bullet_items_filter_sublist.
  pose proof (fold_collects t_keyPoints (text_step_keyPoints) L text_init) as Hk.
  pose proof (fold_collects t_topics (text_step_topics) L text_init) as Ht.
  pose proof (fold_collects t_actionItems (text_step_actionItems) L text_init) as Ha.
  fold st in Hk, Ht, Ha. cbn [t_keyPoints t_topics t_actionItems text_init app] in Hk, Ht, Ha.
  split; [|split].
  - destruct (t_keyPoints st) as [|a l] eqn:E; [by left|right].
    exists (a :: l). split; [done|]. split; [done|]. by etrans.
  - destruct (t_topics st) as [|a l] eqn:E; [by left|right].
    exists (a :: l). split; [done|]. split; [done|]. by etrans.
  - exists (t_actionItems st). split; [done|]. by etrans.
Qed.

End TextResponse.

(** X16: with a proxy URL configured but no proxy access token, the OpenAI
    requests of the transcription and summary services still go to the
    proxy, with the token "undefined", while the X Space service sends its
    requests directly to their target. *)
Theorem proxy_without_token (env : Env) (fetch_twitter : Request -> Exn + Response jsval)
    (p url method : jsstr) :
  VITE_PROXY_SERVER_URL env = Some p -> p <> [] -> p <> undefined_str ->
  env_truthy (VITE_PROXY_SERVER_ACCESS_TOKEN env) = false ->
  openai_request env url method = ViaProxy p undefined_str url method /\
  fst (makeApiRequest env fetch_twitter url method) = [Direct url method].
Proof.
  intros Hp Hne Hnu Ht.
  assert (HpU : proxyUrl env = p) by (unfold proxyUrl, or_empty; rewrite Hp; by destruct p).
  assert (HpT : proxyToken env = undefined_str).
  { unfold proxyToken, or_empty. unfold env_truthy in Ht.
    by destruct (VITE_PROXY_SERVER_ACCESS_TOKEN env) as [[|]|]. }
  split.
  - unfold openai_request. rewrite HpU, HpT.
    unfold str_eqb. by rewrite bool_decide_false.
  - unfold makeApiRequest. rewrite HpT.
    replace (str_eqb undefined_str undefined_str) with true
      by (symmetry; unfold str_eqb; by apply bool_decide_eq_true).
    cbn [negb]. rewrite andb_false_r.
    cbn. by destruct (fetch_twitter (Direct url method)).
Qed.

Lemma proxy_without_token_witness :
  let env := {| VITE_OPENAI_API_KEY := Some (lit "sk-test");
                VITE_PROXY_SERVER_URL := Some (lit "https://proxy.example/forward");
                VITE_PROXY_SERVER_ACCESS_TOKEN := None;
                VITE_TWITTER_BEARER_TOKEN := None |} in
  VITE_PROXY_SERVER_URL env = Some (lit "https://proxy.example/forward") /\
  lit "https://proxy.example/forward" <> [] /\
  lit "https://proxy.example/forward" <> undefined_str /\
  env_truthy (VITE_PROXY_SERVER_ACCESS_TOKEN env) = false /\
  openai_request env completions_url POST
    = ViaProxy (lit "https://proxy.example/forward") undefined_str completions_url POST /\
  fst (makeApiRequest env (fun _ => inl NonError) completions_url POST)
    = [Direct completions_url POST].
Proof.
  cbv zeta. split; [reflexivity|]. split; [discriminate|]. split; [discriminate|].
  split; [reflexivity|].
  apply proxy_without_token; [reflexivity|discriminate|discriminate|reflexivity].
Defined.

End ServicesProofs.
